(** * ZENTRO chat front-end: the streaming conversation state machine

    A shallow embedding of [ChatInterface] (src/src/App.tsx, lines 26-138):
    the [Message] list held in React state, the [handleSubmit] handler and
    the streaming loop that patches the assistant placeholder.

    Conventions of the embedding.
    - A JavaScript string is the list of its UTF-16 code units.
    - React state ([messages], [input], [isLoading]) lives in a [World]
      record together with the wall clock and the heap of arrays that
      [handleSubmit] allocates.  A dispatch runs its handler to the point
      where it returns or hangs.  A state setter called with an updater
      function applies the updater at once; for the patches of the
      streaming loop, whose updater reads locals that change, this is the
      case where React renders after every chunk, and [handleSubmitQueued]
      covers the others.
    - The array [sources] of an exchange is an object shared between the
      handler and every message it was stored in: messages hold a
      reference into the heap, [push] mutates the heap.
    - [Date.now()] and [new Date()] read a clock whose readings are
      integral time values that never decrease; how much time passes
      before each reading is a parameter of the world.
    - The model capability (the [@google/genai] client) is a parameter of
      the handler: it says which of the calls throws and which stream
      items arrive.  A promise that never settles leaves the handler
      suspended at its [await]. *)

From stdpp Require Import base numbers list strings pretty.
From Stdlib Require Import Ascii.

Open Scope Z_scope.

(** ** JavaScript strings *)

Abbreviation jsstring := (list N).

(** An ASCII literal as a JavaScript string. *)
Definition lit (s : string) : jsstring :=
  (λ a, N_of_ascii a) <$> String.list_ascii_of_string s.

(** ECMAScript WhiteSpace and LineTerminator code points, the ones
    [String.prototype.trim] strips. *)
Definition isWhiteSpace (c : N) : bool :=
  existsb (N.eqb c)
    [9; 10; 11; 12; 13; 32; 160; 5760; 8232; 8233; 8239; 8287; 12288; 65279]%N
  || ((8192 <=? c) && (c <=? 8202))%N.

Fixpoint trimStart (s : jsstring) : jsstring :=
  match s with
  | c :: s' => if isWhiteSpace c then trimStart s' else s
  | [] => []
  end.

Definition trimEnd (s : jsstring) : jsstring :=
  reverse (trimStart (reverse s)).

Definition trim (s : jsstring) : jsstring := trimEnd (trimStart s).

(** Truthiness of a string: every string but the empty one. *)
Definition truthy (s : jsstring) : bool :=
  match s with [] => false | _ :: _ => true end.

(** Truthiness of [string | undefined]. *)
Definition truthy_opt (o : option jsstring) : bool :=
  match o with Some s => truthy s | None => false end.

(** [Number.prototype.toString] on an integral time value: the decimal
    digits, with a minus sign below zero.  Time values, and a time value
    plus one, are integers that JavaScript numbers hold exactly. *)
Definition toString (n : Z) : jsstring := lit (pretty n).

(** ** Data model (lines 26-32) *)

Inductive Role := user | assistant.

Record Source := mkSource { uri : jsstring; title : jsstring }.

(** A reference to an array of sources on the heap. *)
Abbreviation ArrayRef := nat.

Record Message := mkMessage {
  id : jsstring;
  role : Role;
  content : jsstring;
  timestamp : Z;
  sources : option ArrayRef;
}.

Global Instance Role_eq_dec : EqDecision Role.
Proof. solve_decision. Defined.
Global Instance Source_eq_dec : EqDecision Source.
Proof. solve_decision. Defined.
Global Instance Message_eq_dec : EqDecision Message.
Proof. solve_decision. Defined.

(** ** The response chunks of the model SDK

    Only the parts [handleSubmit] reads: the [text] getter and the path
    [candidates?.[0]?.groundingMetadata?.groundingChunks], whose entries
    carry [web?.uri] and [web?.title]. *)
Module SDK.
Record Web := mkWeb { uri : option jsstring; title : option jsstring }.
Record GroundingChunk := mkGroundingChunk { web : option Web }.
Record GroundingMetadata := mkGroundingMetadata {
  groundingChunks : option (list GroundingChunk) }.
Record Candidate := mkCandidate {
  groundingMetadata : option GroundingMetadata }.
Record GenerateContentResponse := mkResponse {
  text : option jsstring;
  candidates : option (list Candidate);
}.

(** One step of the asynchronous iterator. *)
Inductive StreamItem :=
| Yield (chunk : GenerateContentResponse)
| Throw.

(** What the iterator does after its listed items. *)
Inductive StreamTail := Exhausted | Stalls.

Inductive SendResult :=
| Rejects
| NeverSettles
| Resolves (items : list StreamItem) (tail : StreamTail).

(** The behaviour of the client during one exchange:
    [new GoogleGenAI] (line 71), [ai.chats.create] (line 73) and
    [chat.sendMessageStream] (line 82). *)
Record Capability := mkCapability {
  clientThrows : bool;
  createThrows : bool;
  send : SendResult;
}.
End SDK.

(** ** The world: React state, heap and clock *)

Record World := mkWorld {
  messages : list Message;
  input : jsstring;
  isLoading : bool;
  arrays : list (list Source);
  clock : Z;
  delays : list N;
}.

(** The sources a message shows: its array, read through the heap. *)
Definition sourcesOf (w : World) (m : Message) : option (list Source) :=
  match sources m with
  | Some r => Some (default [] (arrays w !! r))
  | None => None
  end.

(** ** Completions and the execution monad *)

Inductive Completion (A : Type) :=
| Normal (a : A)
| Thrown
| Suspended.
Arguments Normal {A} a.
Arguments Thrown {A}.
Arguments Suspended {A}.

Definition Exec (A : Type) : Type := World → Completion A * World.

Global Instance Exec_ret : MRet Exec := λ A a w, (Normal a, w).

Global Instance Exec_bind : MBind Exec := λ A B f m w,
  match m w with
  | (Normal a, w') => f a w'
  | (Thrown, w') => (Thrown, w')
  | (Suspended, w') => (Suspended, w')
  end.

Definition throw {A} : Exec A := λ w, (Thrown, w).
Definition suspend {A} : Exec A := λ w, (Suspended, w).

(** [try { body } catch { handler } finally { finalizer }]; a handler
    that is suspended never reaches the finalizer. *)
Definition tryCatchFinally (body handler finalizer : Exec ()) : Exec () := λ w,
  match body w with
  | (Normal _, w1) => finalizer w1
  | (Thrown, w1) =>
      match handler w1 with
      | (Normal _, w2) => finalizer w2
      | (Thrown, w2) =>
          match finalizer w2 with
          | (Normal _, w3) => (Thrown, w3)
          | r => r
          end
      | (Suspended, w2) => (Suspended, w2)
      end
  | (Suspended, w1) => (Suspended, w1)
  end.

(** *** State setters *)

Definition withMessages (f : list Message → list Message) (w : World)
    : World :=
  mkWorld (f (messages w)) (input w) (isLoading w)
          (arrays w) (clock w) (delays w).

Definition withInput (s : jsstring) (w : World) : World :=
  mkWorld (messages w) s (isLoading w) (arrays w) (clock w) (delays w).

Definition withIsLoading (b : bool) (w : World) : World :=
  mkWorld (messages w) (input w) b (arrays w) (clock w) (delays w).

Definition withArrays (f : list (list Source) → list (list Source))
    (w : World) : World :=
  mkWorld (messages w) (input w) (isLoading w)
          (f (arrays w)) (clock w) (delays w).

Definition setMessages (f : list Message → list Message) : Exec () :=
  λ w, (Normal (), withMessages f w).
Definition setInput (s : jsstring) : Exec () :=
  λ w, (Normal (), withInput s w).
Definition setIsLoading (b : bool) : Exec () :=
  λ w, (Normal (), withIsLoading b w).

Definition getInput : Exec jsstring := λ w, (Normal (input w), w).
Definition getIsLoading : Exec bool := λ w, (Normal (isLoading w), w).

(** *** The clock

    Each reading first lets the next delay elapse, so successive readings
    never decrease. *)
Definition tick (w : World) : World :=
  mkWorld (messages w) (input w) (isLoading w) (arrays w)
          (clock w + Z.of_N (default 0%N (head (delays w))))
          (tail (delays w)).

Definition Date_now : Exec Z := λ w, (Normal (clock (tick w)), tick w).

(** [new Date()]: a time stamp holding the current reading. *)
Definition new_Date : Exec Z := Date_now.

(** *** Arrays *)

(** [[]]: a fresh array. *)
Definition newArray : Exec ArrayRef := λ w,
  (Normal (length (arrays w)), withArrays (λ h, h ++ [[]]) w).

Definition readArray (r : ArrayRef) : Exec (list Source) := λ w,
  (Normal (default [] (arrays w !! r)), w).

Definition modifyArray (r : ArrayRef) (f : list Source → list Source)
    : Exec () :=
  λ w, (Normal (), withArrays (alter f r) w).

(** ** Conversation store *)

(** [append]: [(prev) => [...prev, message]] (lines 66, 88-96, 126-134). *)
Definition append (message : Message) (prev : list Message) : list Message :=
  prev ++ [message].

(** [updateById]: the patch of lines 115-121,
    [prev.map(msg => msg.id === id ? {...msg, content, sources} : msg)]. *)
Definition updateById (assistantMessageId assistantContent : jsstring)
    (patchSources : option ArrayRef) (prev : list Message) : list Message :=
  (λ msg,
     if decide (id msg = assistantMessageId)
     then mkMessage (id msg) (role msg) assistantContent (timestamp msg)
                    patchSources
     else msg) <$> prev.
Arguments updateById : simpl never.

(** ** Stream consumer *)

(** [chunk.candidates?.[0]?.groundingMetadata?.groundingChunks] (line 102). *)
Definition groundingChunksOf (chunk : SDK.GenerateContentResponse)
    : option (list SDK.GroundingChunk) :=
  cs ← SDK.candidates chunk;
  c ← head cs;
  gm ← SDK.groundingMetadata c;
  SDK.groundingChunks gm.

(** The callback of [groundingChunks.forEach] (lines 104-110), acting on
    the contents of the array [sources]. *)
Definition collect (sources : list Source) (c : SDK.GroundingChunk)
    : list Source :=
  match SDK.web c ≫= SDK.uri, SDK.web c ≫= SDK.title with
  | Some web_uri, Some web_title =>
      if truthy web_uri && truthy web_title then
        match find (λ s, bool_decide (uri s = web_uri)) sources with
        | Some _ => sources
        | None => sources ++ [mkSource web_uri web_title]
        end
      else sources
  | _, _ => sources
  end.

(** [groundingChunks.forEach(callback)]. *)
Definition forEach (groundingChunks : list SDK.GroundingChunk)
    (sources : list Source) : list Source :=
  foldl collect sources groundingChunks.

(** The body of the [for await] loop (lines 99-122), its patch applied as
    soon as it is queued; it returns the new value of the local
    [assistantContent]. *)
Definition loopBody (assistantMessageId : jsstring) (sources : ArrayRef)
    (chunk : SDK.GenerateContentResponse) (assistantContent : jsstring)
    : Exec jsstring :=
  let chunkText := SDK.text chunk in
  match groundingChunksOf chunk with
  | Some groundingChunks => modifyArray sources (forEach groundingChunks)
  | None => mret ()
  end;;
  if truthy_opt chunkText then
    let assistantContent := assistantContent ++ default [] chunkText in
    arr ← readArray sources;
    setMessages (updateById assistantMessageId assistantContent
                   (if bool_decide (0 < length arr)%nat then Some sources
                    else None));;
    mret assistantContent
  else mret assistantContent.

(** [for await (const chunk of responseStream)] (lines 98-123); it returns
    the value of [assistantContent] when the stream is exhausted. *)
Fixpoint forAwait (assistantMessageId : jsstring) (sources : ArrayRef)
    (items : list SDK.StreamItem) (tl : SDK.StreamTail)
    (assistantContent : jsstring) : Exec jsstring :=
  match items with
  | [] =>
      match tl with
      | SDK.Exhausted => mret assistantContent
      | SDK.Stalls => suspend
      end
  | SDK.Throw :: _ => throw
  | SDK.Yield chunk :: rest =>
      assistantContent ← loopBody assistantMessageId sources chunk
                                   assistantContent;
      forAwait assistantMessageId sources rest tl assistantContent
  end.

(** [new GoogleGenAI(...)] and [ai.chats.create(...)] (lines 71-79). *)
Definition new_GoogleGenAI (model : SDK.Capability) : Exec () :=
  if SDK.clientThrows model then throw else mret ().

Definition chats_create (model : SDK.Capability) : Exec () :=
  if SDK.createThrows model then throw else mret ().

(** [await chat.sendMessageStream(...)] (line 82). *)
Definition sendMessageStream (model : SDK.Capability)
    : Exec (list SDK.StreamItem * SDK.StreamTail) :=
  match SDK.send model with
  | SDK.Rejects => throw
  | SDK.NeverSettles => suspend
  | SDK.Resolves items tl => mret (items, tl)
  end.

(** The placeholder of lines 90-95. *)
Definition placeholder (assistantMessageId : jsstring) (ts : Z) : Message :=
  mkMessage assistantMessageId assistant [] ts None.

(** The [try] block (lines 71-123). *)
Definition tryBlock (model : SDK.Capability) : Exec () :=
  new_GoogleGenAI model;;
  currentTime ← new_Date;
  chats_create model;;
  responseStream ← sendMessageStream model;
  now ← Date_now;
  let assistantMessageId := toString (now + 1) in
  let assistantContent : jsstring := [] in
  sources ← newArray;
  ts ← new_Date;
  setMessages (append (placeholder assistantMessageId ts));;
  forAwait assistantMessageId sources responseStream.1 responseStream.2
           assistantContent;;
  mret ().

Definition apologyText : jsstring :=
  lit "I'm sorry, I encountered an error. Please try again.".

(** The message of lines 128-133. *)
Definition apology (now ts : Z) : Message :=
  mkMessage (toString now) assistant apologyText ts None.

(** The [catch] block (lines 125-134). *)
Definition catchBlock : Exec () :=
  now ← Date_now;
  ts ← new_Date;
  setMessages (append (apology now ts)).

(** The [finally] block (line 136). *)
Definition finallyBlock : Exec () := setIsLoading false.

(** The message of lines 59-64. *)
Definition userMessageOf (now : Z) (input : jsstring) (ts : Z) : Message :=
  mkMessage (toString now) user input ts None.

(** [handleSubmit] (lines 55-138).  [input] and [isLoading] are the values
    of the state the handler closes over. *)
Definition handleSubmit (model : SDK.Capability) : Exec () :=
  input ← getInput;
  isLoading ← getIsLoading;
  if negb (truthy (trim input)) || isLoading then mret () else
  now ← Date_now;
  ts ← new_Date;
  let userMessage := userMessageOf now input ts in
  setMessages (append userMessage);;
  setInput [];;
  setIsLoading true;;
  tryCatchFinally (tryBlock model) catchBlock finallyBlock.

(** ** The session *)

Definition greeting : jsstring :=
  lit "Hello! I'm your Gemini-powered assistant. How can I help you today?".

(** The initial message of lines 36-41. *)
Definition initialMessage (ts : Z) : Message :=
  mkMessage (lit "1") assistant greeting ts None.

(** The state of the component when it mounts at clock reading [now]. *)
Definition mount (now : Z) (ds : list N) : World :=
  mkWorld [initialMessage now] [] false [] now ds.

(** What happens to the component: the text field changes (line 235) or
    the form is submitted (line 231) while the client behaves as [model]. *)
Inductive Event :=
| Change (value : jsstring)
| Submit (model : SDK.Capability).

Definition dispatch (w : World) (e : Event) : World :=
  match e with
  | Change value => (setInput value w).2
  | Submit model => (handleSubmit model w).2
  end.

Definition session (es : list Event) (w : World) : World :=
  foldl dispatch w es.

(** A state the component can be in. *)
Definition reachable (w : World) : Prop :=
  ∃ now ds es, w = session es (mount now ds).

(** ** Vocabulary of the statements *)

(** The guard of line 57 lets the submission through. *)
Definition accepted (w : World) : Prop :=
  trim (input w) ≠ [] ∧ isLoading w = false.

(** The world after lines 59-68: the user message is appended, the input
    field is cleared and the session is pending. *)
Definition submitted (w : World) : World :=
  let w1 := tick w in
  let w2 := tick w1 in
  withIsLoading true
    (withInput []
       (withMessages (append (userMessageOf (clock w1) (input w) (clock w2)))
          w2)).


(** The world after lines 71-96 when nothing throws, from the world [w] at
    the entry of the [try] block: three clock readings (lines 72, 84 and
    94), a fresh array and the placeholder appended. *)
Definition opened (w : World) : World :=
  let w4 := tick (tick w) in
  let w5 := tick (withArrays (λ h, h ++ [[]]) w4) in
  withMessages (append (placeholder (toString (clock w4 + 1)) (clock w5))) w5.

(** The world after the [catch] block (lines 125-134), from the world [w]
    at the fault. *)
Definition caught (w : World) : World :=
  let w1 := tick w in
  let w2 := tick w1 in
  withMessages (append (apology (clock w1) (clock w2))) w2.

(** The local [assistantContent] and the world after the loop body has
    run on each of [chunks] in turn. *)
Definition afterChunks (assistantMessageId : jsstring) (sources : ArrayRef)
    (chunks : list SDK.GenerateContentResponse) (st : jsstring * World)
    : jsstring * World :=
  foldl (λ st chunk,
           match loopBody assistantMessageId sources chunk st.1 st.2 with
           | (Normal assistantContent, w) => (assistantContent, w)
           | (_, w) => (st.1, w)
           end) st chunks.

(** The text delta a chunk carries, empty when it carries none. *)
Definition delta (chunk : SDK.GenerateContentResponse) : jsstring :=
  default [] (SDK.text chunk).

(** The citations a stream delivers, in arrival order. *)
Definition citations (chunks : list SDK.GenerateContentResponse)
    : list SDK.GroundingChunk :=
  chunks ≫= λ chunk, default [] (groundingChunksOf chunk).

(** The id given to the placeholder of the exchange that starts in [w]
    (line 84). *)
Definition assistantMessageIdOf (w : World) : jsstring :=
  toString (clock (tick (tick (submitted w))) + 1).

(** The local [assistantContent] and the world once the exchange that
    starts in [w] has processed [chunks]. *)
Definition streaming (w : World) (chunks : list SDK.GenerateContentResponse)
    : jsstring * World :=
  afterChunks (assistantMessageIdOf w) (length (arrays w)) chunks
    ([], opened (submitted w)).

(** A client that creates its context and resolves the send with a stream. *)
Definition responds (items : list SDK.StreamItem) (tl : SDK.StreamTail)
    : SDK.Capability :=
  SDK.mkCapability false false (SDK.Resolves items tl).

(** What the loop may do to a message of the store while it patches the
    messages whose id is [i]: the identity, role and time stamp stay, and
    a message with another id stays as it is. *)
Definition patchedAt (i : jsstring) (m m' : Message) : Prop :=
  id m' = id m ∧ role m' = role m ∧ timestamp m' = timestamp m
  ∧ (id m ≠ i → m' = m).

(** The [k]-th reading of the clock after the state [w]. *)
Definition reading (k : nat) (w : World) : Z := clock (Nat.iter k tick w).

(** The user message and the placeholder of the exchange that starts in
    [w]: the first two readings make the user message, the fourth and the
    fifth the placeholder. *)
Definition userMessageIn (w : World) : Message :=
  userMessageOf (reading 1 w) (input w) (reading 2 w).

Definition placeholderIn (w : World) : Message :=
  placeholder (toString (reading 4 w + 1)) (reading 5 w).

(** *** The source merge, as the specification words it *)

(** A citation that presents both a uri and a title, as a pair. *)
Definition validPair (c : SDK.GroundingChunk) : option Source :=
  web ← SDK.web c;
  web_uri ← SDK.uri web;
  web_title ← SDK.title web;
  if truthy web_uri && truthy web_title
  then Some (mkSource web_uri web_title) else None.

Definition validPairs (l : list SDK.GroundingChunk) : list Source :=
  omap validPair l.

(** Every uri once, where it is first seen. *)
Fixpoint firstSeen (l : list Source) : list Source :=
  match l with
  | [] => []
  | p :: l => p :: filter (λ q, uri q ≠ uri p) (firstSeen l)
  end.

(** The chunks the loop gets to process: those the stream yields before
    its first fault. *)
Fixpoint processed (items : list SDK.StreamItem)
    : list SDK.GenerateContentResponse :=
  match items with
  | SDK.Yield chunk :: rest => chunk :: processed rest
  | _ => []
  end.

(** The chunks a stream yields before its first fault, if it has one. *)
Fixpoint beforeThrow (items : list SDK.StreamItem)
    : option (list SDK.GenerateContentResponse) :=
  match items with
  | [] => None
  | SDK.Throw :: _ => Some []
  | SDK.Yield chunk :: rest => (chunk ::.) <$> beforeThrow rest
  end.

(** For a client that faults during the exchange, a client that never
    settles instead: after the same chunks when the fault is in the
    stream, at the send when the fault is in the creation of the context
    or in the send.  It leaves the handler suspended with the messages,
    the arrays, the input field and the pending flag the fault finds.  A
    client that does not fault has none. *)
Definition frozen (model : SDK.Capability) : option SDK.Capability :=
  if SDK.clientThrows model || SDK.createThrows model
  then Some (SDK.mkCapability false false SDK.NeverSettles)
  else
    match SDK.send model with
    | SDK.Rejects => Some (SDK.mkCapability false false SDK.NeverSettles)
    | SDK.NeverSettles => None
    | SDK.Resolves items _ =>
        chunks ← beforeThrow items;
        Some (responds (SDK.Yield <$> chunks) SDK.Stalls)
    end.

(** ** Example sessions *)

(** The component, mounted on 3 November 2025, after "Hello" was typed;
    the delays are those before the clock readings of the submission. *)
Definition helloWorld : World :=
  session [Change (lit "Hello")]
    (mount 1762153200000 [5000; 0; 1; 250; 0; 40; 0]%N).

(** A chunk that carries a text delta only. *)
Definition textChunk (s : string) : SDK.GenerateContentResponse :=
  SDK.mkResponse (Some (lit s)) None.

(** A chunk that carries an optional text delta and citations. *)
Definition citingChunk (s : option string)
    (l : list SDK.GroundingChunk) : SDK.GenerateContentResponse :=
  SDK.mkResponse (lit <$> s)
    (Some [SDK.mkCandidate (Some (SDK.mkGroundingMetadata (Some l)))]).

Definition citation (u t : string) : SDK.GroundingChunk :=
  SDK.mkGroundingChunk (Some (SDK.mkWeb (Some (lit u)) (Some (lit t)))).

(** ** Tactics *)

(** Runs the monadic operations on the world at hand. *)
Ltac exec :=
  repeat (unfold mbind, mret, Exec_bind, Exec_ret, setMessages, setInput,
            setIsLoading, getInput, getIsLoading, Date_now, new_Date,
            newArray, readArray, modifyArray, throw, suspend; cbn).


(** ** The rendered view (lines 140-252)

    The tests the JSX makes on the state. *)

(** [disabled={!input.trim() || isLoading}] of the submit button
    (line 241). *)
Definition submitDisabled (w : World) : bool :=
  negb (truthy (trim (input w))) || isLoading w.

(** [isLoading && messages[messages.length - 1].role === 'user'], the test
    of the "Thinking..." indicator (line 216).  With no message at all,
    reading [role] of [undefined] throws: there is no value. *)
Definition thinkingShown (w : World) : option bool :=
  if isLoading w then
    match last (messages w) with
    | Some message => Some (bool_decide (role message = user))
    | None => None
    end
  else Some false.

(** [message.sources && message.sources.length > 0] (line 190): the
    sources the bubble of a message lists, if it lists any. *)
Definition sourcesShown (w : World) (message : Message)
    : option (list Source) :=
  match sourcesOf w message with
  | Some l => if bool_decide (0 < length l)%nat then Some l else None
  | None => None
  end.

(** ** Vocabulary of the further statements *)

(** A chunk with a non-empty text delta, the test of line 113. *)
Definition carriesText (chunk : SDK.GenerateContentResponse) : bool :=
  truthy_opt (SDK.text chunk).

(** The stream faults at some point. *)
Definition faults (model : SDK.Capability) : bool :=
  bool_decide (is_Some (frozen model)).

(** The stream is opened: the context is created and the send resolves. *)
Definition opens (model : SDK.Capability) : bool :=
  negb (SDK.clientThrows model) && negb (SDK.createThrows model)
  && match SDK.send model with SDK.Resolves _ _ => true | _ => false end.

(** Every source of an array has a uri and a title, and no uri comes
    twice. *)
Definition wellFormedSources (l : list Source) : Prop :=
  NoDup (uri <$> l) ∧ Forall (λ s, uri s ≠ [] ∧ title s ≠ []) l.

(** The time stamps of the messages never decrease along the store. *)
Definition chronological (l : list Message) : Prop :=
  ∀ i j a b, (i ≤ j)%nat → l !! i = Some a → l !! j = Some b →
             timestamp a ≤ timestamp b.

(** The course an exchange takes, read off the behaviour of the client:
    where it faults or hangs, and after which chunks. *)
Inductive Course :=
| ClientFault
| OpenFault
| SendHangs
| StreamHangs (chunks : list SDK.GenerateContentResponse)
| StreamEnds (chunks : list SDK.GenerateContentResponse)
| StreamFault (chunks : list SDK.GenerateContentResponse).

Definition course (model : SDK.Capability) : Course :=
  if SDK.clientThrows model then ClientFault
  else if SDK.createThrows model then OpenFault
  else
    match SDK.send model with
    | SDK.Rejects => OpenFault
    | SDK.NeverSettles => SendHangs
    | SDK.Resolves items tl =>
        match beforeThrow items, tl with
        | Some chunks, _ => StreamFault chunks
        | None, SDK.Exhausted => StreamEnds (processed items)
        | None, SDK.Stalls => StreamHangs (processed items)
        end
    end.

(** The completion and the world an accepted submission in [w] ends with,
    for each course. *)
Definition outcome (c : Course) (w : World) : Completion () * World :=
  match c with
  | ClientFault => (Normal (), withIsLoading false (caught (submitted w)))
  | OpenFault =>
      (Normal (), withIsLoading false (caught (tick (submitted w))))
  | SendHangs => (Suspended, tick (submitted w))
  | StreamHangs chunks => (Suspended, (streaming w chunks).2)
  | StreamEnds chunks =>
      (Normal (), withIsLoading false (streaming w chunks).2)
  | StreamFault chunks =>
      (Normal (), withIsLoading false (caught (streaming w chunks).2))
  end.

(** The client leaves the handler suspended: the send never settles, or
    the stream stalls before any fault. *)
Definition hangs (model : SDK.Capability) : bool :=
  negb (SDK.clientThrows model) && negb (SDK.createThrows model)
  && match SDK.send model with
     | SDK.NeverSettles => true
     | SDK.Resolves items SDK.Stalls =>
         match beforeThrow items with None => true | Some _ => false end
     | _ => false
     end.

(** Every message that has sources refers to an array that exists and is
    not empty. *)
Definition sourcesSet (w : World) : Prop :=
  ∀ m r, m ∈ messages w → sources m = Some r →
         ∃ l, arrays w !! r = Some l ∧ l ≠ [].

(** The messages are in the order of their time stamps, none of which is
    ahead of the clock. *)
Definition timed (w : World) : Prop :=
  chronological (messages w)
  ∧ Forall (λ m, timestamp m ≤ clock w) (messages w).

(** The chunks up to the last one that carries text; none when no chunk
    carries text. *)
Fixpoint upToLastText (chunks : list SDK.GenerateContentResponse)
    : list SDK.GenerateContentResponse :=
  match chunks with
  | [] => []
  | chunk :: rest =>
      match upToLastText rest with
      | [] => if carriesText chunk then [chunk] else []
      | kept => chunk :: kept
      end
  end.

(** Every user message of the store has no sources and an id that is a
    clock reading of the past. *)
Definition userMessagesDated (w : World) : Prop :=
  ∀ m, m ∈ messages w → role m = user →
       sources m = None ∧ ∃ t, id m = toString t ∧ t ≤ clock w.

(** Only a pending session ends with a message of the user. *)
Definition userLastOnlyPending (w : World) : Prop :=
  ∀ m, last (messages w) = Some m → role m = user → isLoading w = true.

(** ** React's update queue

    [setMessages(updater)] does not run the updater: React queues it and
    runs the queued updaters, in order, when it renders next.  The
    updaters of lines 66, 88-96 and 126-134 append a message; they read
    nothing that changes but the clock, and they take its readings in the
    same order whenever they run.  The updater of lines 115-121 reads the
    local [assistantContent] and the array [sources] when it runs: a patch
    that is still queued when later chunks arrive carries what these
    chunks added.  [handleSubmit] is the handler when React renders after
    every chunk; [handleSubmitQueued] leaves open after which chunks it
    renders. *)

(** React runs the queued patches of lines 115-121: each one is
    [updateById] on the locals as they are now. *)
Fixpoint runQueued (assistantMessageId : jsstring) (sources : ArrayRef)
    (assistantContent : jsstring) (queued : nat) : Exec () :=
  match queued with
  | O => mret ()
  | S queued =>
      arr ← readArray sources;
      setMessages (updateById assistantMessageId assistantContent
                     (if bool_decide (0 < length arr)%nat then Some sources
                      else None));;
      runQueued assistantMessageId sources assistantContent queued
  end.

(** The body of the [for await] loop (lines 99-122) with its patch queued;
    it returns the new value of the local [assistantContent] and the
    number of patches that are queued. *)
Definition loopBodyQueued (sources : ArrayRef)
    (chunk : SDK.GenerateContentResponse) (assistantContent : jsstring)
    (queued : nat) : Exec (jsstring * nat) :=
  let chunkText := SDK.text chunk in
  match groundingChunksOf chunk with
  | Some groundingChunks => modifyArray sources (forEach groundingChunks)
  | None => mret ()
  end;;
  if truthy_opt chunkText then
    let assistantContent := assistantContent ++ default [] chunkText in
    mret (assistantContent, S queued)
  else mret (assistantContent, queued).

(** [for await (const chunk of responseStream)] (lines 98-123) with the
    patches queued.  [renders] says, chunk after chunk, whether React
    renders once the body has run on the chunk and before the next item
    arrives; it does when the list runs out.  When the loop is left, by
    the end of the stream, by a fault or because the stream stalls, React
    runs what is queued before anything else is appended. *)
Fixpoint forAwaitQueued (assistantMessageId : jsstring) (sources : ArrayRef)
    (items : list SDK.StreamItem) (tl : SDK.StreamTail)
    (renders : list bool) (assistantContent : jsstring) (queued : nat)
    : Exec jsstring :=
  match items with
  | [] =>
      runQueued assistantMessageId sources assistantContent queued;;
      match tl with
      | SDK.Exhausted => mret assistantContent
      | SDK.Stalls => suspend
      end
  | SDK.Throw :: _ =>
      runQueued assistantMessageId sources assistantContent queued;;
      throw
  | SDK.Yield chunk :: rest =>
      st ← loopBodyQueued sources chunk assistantContent queued;
      if default true (head renders) then
        runQueued assistantMessageId sources st.1 st.2;;
        forAwaitQueued assistantMessageId sources rest tl (tail renders)
                       st.1 0
      else
        forAwaitQueued assistantMessageId sources rest tl (tail renders)
                       st.1 st.2
  end.

(** The [try] block (lines 71-123) with the patches of the loop queued. *)
Definition tryBlockQueued (model : SDK.Capability) (renders : list bool)
    : Exec () :=
  new_GoogleGenAI model;;
  currentTime ← new_Date;
  chats_create model;;
  responseStream ← sendMessageStream model;
  now ← Date_now;
  let assistantMessageId := toString (now + 1) in
  let assistantContent : jsstring := [] in
  sources ← newArray;
  ts ← new_Date;
  setMessages (append (placeholder assistantMessageId ts));;
  forAwaitQueued assistantMessageId sources responseStream.1
                 responseStream.2 renders assistantContent 0;;
  mret ().

(** [handleSubmit] (lines 55-138) with the patches of the loop queued. *)
Definition handleSubmitQueued (model : SDK.Capability) (renders : list bool)
    : Exec () :=
  input ← getInput;
  isLoading ← getIsLoading;
  if negb (truthy (trim input)) || isLoading then mret () else
  now ← Date_now;
  ts ← new_Date;
  let userMessage := userMessageOf now input ts in
  setMessages (append userMessage);;
  setInput [];;
  setIsLoading true;;
  tryCatchFinally (tryBlockQueued model renders) catchBlock finallyBlock.

(** The [sources] field a patch of lines 115-121 passes when it runs while
    the array holds [arr]. *)
Definition patchSources (sources : ArrayRef) (arr : list Source)
    : option ArrayRef :=
  if bool_decide (0 < length arr)%nat then Some sources else None.

(** The sources of the exchange once the first [k] of [chunks] have been
    processed. *)
Definition sourcesAfter (k : nat) (chunks : list SDK.GenerateContentResponse)
    : list Source :=
  firstSeen (validPairs (citations (take k chunks))).

(** The store of the exchange that starts in [w] when its loop starts. *)
Definition openedStore (w : World) : list Message :=
  messages w ++ [userMessageIn w; placeholderIn w].

(** The world in which the loop of the exchange that starts in [w] is
    left, by the end of the stream, a stall or a fault, once React has
    run what was queued. *)
Definition streamingQueued (w : World) (items : list SDK.StreamItem)
    (tl : SDK.StreamTail) (renders : list bool) : World :=
  (forAwaitQueued (assistantMessageIdOf w) (length (arrays w)) items tl
     renders [] 0 (opened (submitted w))).2.

(** ** Vocabulary of the statements on ids *)

(** Every id of the store is a number that the clock bounds: at most the
    last reading plus one. *)
Definition idsDated (w : World) : Prop :=
  ∀ m, m ∈ messages w → ∃ t, id m = toString t ∧ t ≤ clock w + 1.
(** * Properties *)

(** ** Strings and identifiers *)

Lemma lit_inj s1 s2 : lit s1 = lit s2 → s1 = s2.
Proof.
  unfold lit. intros H.
  rewrite <- (String.string_of_list_ascii_of_string s1).
  rewrite <- (String.string_of_list_ascii_of_string s2).
  f_equal.
  revert H. generalize (String.list_ascii_of_string s1).
  generalize (String.list_ascii_of_string s2).
  intros l2 l1. revert l2.
  induction l1 as [|a l1 IH]; intros [|b l2] H; simplify_eq/=; [done|].
  f_equal; [|by apply IH].
  rewrite <- (ascii_N_embedding a), <- (ascii_N_embedding b). congruence.
Qed.

Lemma toString_inj n1 n2 : toString n1 = toString n2 → n1 = n2.
Proof. unfold toString. intros H%lit_inj. by apply (inj pretty). Qed.

Lemma truthy_true s : truthy s = true ↔ s ≠ [].
Proof. by destruct s. Qed.

(** ** The clock *)

Lemma clock_tick w : clock w ≤ clock (tick w).
Proof. unfold tick; cbn. lia. Qed.

(** ** Accepted and rejected submissions *)

Lemma handleSubmit_accepted model w :
  accepted w →
  handleSubmit model w
  = tryCatchFinally (tryBlock model) catchBlock finallyBlock (submitted w).
Proof.
  intros [Hin Hload]. unfold handleSubmit. exec.
  apply truthy_true in Hin. by rewrite Hin, Hload.
Qed.

Lemma handleSubmit_rejected model w :
  trim (input w) = [] ∨ isLoading w = true →
  handleSubmit model w = (Normal (), w).
Proof.
  intros H. unfold handleSubmit. exec.
  destruct H as [-> | ->]; [done|]. by rewrite orb_true_r.
Qed.

(** ** The conversation store *)

Lemma length_updateById i c s prev :
  length (updateById i c s prev) = length prev.
Proof. unfold updateById. by rewrite length_fmap. Qed.

Lemma ids_updateById i c s prev :
  id <$> updateById i c s prev = id <$> prev.
Proof.
  unfold updateById. rewrite <- list_fmap_compose.
  apply list_fmap_ext. intros _ m _. cbn. by case_decide.
Qed.

Lemma updateById_unknown i c s prev :
  i ∉ id <$> prev → updateById i c s prev = prev.
Proof.
  intros Hi. unfold updateById.
  rewrite <- (list_fmap_id prev) at 2.
  apply list_fmap_ext. intros n m Hm. cbn.
  case_decide as Heq; [|done].
  exfalso. apply Hi. rewrite <- Heq.
  apply list_elem_of_fmap_2. by eapply list_elem_of_lookup_2.
Qed.

Lemma updateById_lookup i c s prev n m :
  prev !! n = Some m →
  updateById i c s prev !! n
  = Some (if decide (id m = i)
          then mkMessage (id m) (role m) c (timestamp m) s else m).
Proof. intros H. unfold updateById. by rewrite list_lookup_fmap, H. Qed.

(** ** Closed forms of the handler *)

Lemma withArrays_id w : withArrays (λ h, h) w = w.
Proof. by destruct w. Qed.

Lemma loopBody_eq i r chunk acc w :
  loopBody i r chunk acc w
  = let w1 := withArrays
                (alter (λ arr, match groundingChunksOf chunk with
                               | Some g => forEach g arr
                               | None => arr
                               end) r) w in
    if truthy_opt (SDK.text chunk)
    then (Normal (acc ++ delta chunk),
          withMessages
            (updateById i (acc ++ delta chunk)
               (if bool_decide (0 < length (default [] (arrays w1 !! r)))%nat
                then Some r else None)) w1)
    else (Normal acc, w1).
Proof.
  unfold loopBody, delta. exec.
  destruct (groundingChunksOf chunk) as [g|]; exec.
  - destruct (truthy_opt (SDK.text chunk)); reflexivity.
  - assert (alter (λ arr : list Source, arr) r (arrays w) = arrays w) as Hid
      by (by apply list_alter_id).
    assert (withArrays (alter (λ arr : list Source, arr) r) w = w) as ->.
    { rewrite <- (withArrays_id w) at 2. unfold withArrays. by f_equal. }
    rewrite Hid.
    destruct (truthy_opt (SDK.text chunk)); reflexivity.
Qed.

Lemma forAwait_yields i r cs rest tl acc w :
  forAwait i r ((SDK.Yield <$> cs) ++ rest) tl acc w
  = forAwait i r rest tl (afterChunks i r cs (acc, w)).1
                         (afterChunks i r cs (acc, w)).2.
Proof.
  revert acc w. induction cs as [|c cs IH]; intros acc w; [done|].
  cbn. unfold mbind, Exec_bind.
  rewrite loopBody_eq. cbn.
  destruct (truthy_opt (SDK.text c)); cbn; by rewrite IH.
Qed.

Lemma tryBlock_resolves model items tl w :
  SDK.clientThrows model = false →
  SDK.createThrows model = false →
  SDK.send model = SDK.Resolves items tl →
  tryBlock model w
  = (forAwait (toString (clock (tick (tick w)) + 1)) (length (arrays w))
       items tl [] ≫= λ _, mret ()) (opened w).
Proof.
  intros H1 H2 H3. unfold tryBlock, new_GoogleGenAI, chats_create,
    sendMessageStream. rewrite H1, H2, H3. by exec.
Qed.

Section exchange.
Context (model : SDK.Capability) (w : World).
Hypothesis Hacc : accepted w.

Lemma handleSubmit_client_fault :
  SDK.clientThrows model = true →
  handleSubmit model w
  = (Normal (), withIsLoading false (caught (submitted w))).
Proof.
  intros H. rewrite handleSubmit_accepted by done.
  unfold tryCatchFinally, tryBlock, new_GoogleGenAI. rewrite H. by exec.
Qed.

Lemma handleSubmit_create_fault :
  SDK.clientThrows model = false →
  SDK.createThrows model = true →
  handleSubmit model w
  = (Normal (), withIsLoading false (caught (tick (submitted w)))).
Proof.
  intros H1 H2. rewrite handleSubmit_accepted by done.
  unfold tryCatchFinally, tryBlock, new_GoogleGenAI, chats_create.
  rewrite H1, H2. by exec.
Qed.

Lemma handleSubmit_send_fault :
  SDK.clientThrows model = false →
  SDK.createThrows model = false →
  SDK.send model = SDK.Rejects →
  handleSubmit model w
  = (Normal (), withIsLoading false (caught (tick (submitted w)))).
Proof.
  intros H1 H2 H3. rewrite handleSubmit_accepted by done.
  unfold tryCatchFinally, tryBlock, new_GoogleGenAI, chats_create,
    sendMessageStream.
  rewrite H1, H2, H3. by exec.
Qed.

Lemma handleSubmit_send_pending :
  SDK.clientThrows model = false →
  SDK.createThrows model = false →
  SDK.send model = SDK.NeverSettles →
  handleSubmit model w = (Suspended, tick (submitted w)).
Proof.
  intros H1 H2 H3. rewrite handleSubmit_accepted by done.
  unfold tryCatchFinally, tryBlock, new_GoogleGenAI, chats_create,
    sendMessageStream.
  rewrite H1, H2, H3. by exec.
Qed.

Lemma handleSubmit_resolves items tl :
  SDK.clientThrows model = false →
  SDK.createThrows model = false →
  SDK.send model = SDK.Resolves items tl →
  handleSubmit model w
  = tryCatchFinally
      (forAwait (assistantMessageIdOf w) (length (arrays w)) items tl []
         ≫= λ _, mret ())
      catchBlock finallyBlock (opened (submitted w)).
Proof.
  intros H1 H2 H3. rewrite handleSubmit_accepted by done.
  unfold tryCatchFinally.
  by rewrite (tryBlock_resolves _ _ _ _ H1 H2 H3).
Qed.

Lemma handleSubmit_exhausted cs :
  SDK.clientThrows model = false →
  SDK.createThrows model = false →
  SDK.send model = SDK.Resolves (SDK.Yield <$> cs) SDK.Exhausted →
  handleSubmit model w
  = (Normal (), withIsLoading false (streaming w cs).2).
Proof.
  intros H1 H2 H3. rewrite (handleSubmit_resolves _ _ H1 H2 H3).
  unfold tryCatchFinally, mbind, Exec_bind.
  rewrite <- (app_nil_r (SDK.Yield <$> cs)), forAwait_yields.
  by exec.
Qed.

Lemma handleSubmit_stalls cs :
  SDK.clientThrows model = false →
  SDK.createThrows model = false →
  SDK.send model = SDK.Resolves (SDK.Yield <$> cs) SDK.Stalls →
  handleSubmit model w = (Suspended, (streaming w cs).2).
Proof.
  intros H1 H2 H3. rewrite (handleSubmit_resolves _ _ H1 H2 H3).
  unfold tryCatchFinally, mbind, Exec_bind.
  rewrite <- (app_nil_r (SDK.Yield <$> cs)), forAwait_yields.
  by exec.
Qed.

Lemma handleSubmit_iteration_fault cs post tl :
  SDK.clientThrows model = false →
  SDK.createThrows model = false →
  SDK.send model
  = SDK.Resolves ((SDK.Yield <$> cs) ++ SDK.Throw :: post) tl →
  handleSubmit model w
  = (Normal (), withIsLoading false (caught (streaming w cs).2)).
Proof.
  intros H1 H2 H3. rewrite (handleSubmit_resolves _ _ H1 H2 H3).
  unfold tryCatchFinally, mbind, Exec_bind.
  rewrite forAwait_yields. by exec.
Qed.
End exchange.

(** Every stream is a run of chunks, followed either by its end or by a
    fault. *)
Lemma items_split (items : list SDK.StreamItem) :
  (∃ cs, items = SDK.Yield <$> cs)
  ∨ (∃ cs post, items = (SDK.Yield <$> cs) ++ SDK.Throw :: post).
Proof.
  induction items as [|[c|] items IH].
  - left. by exists [].
  - destruct IH as [[cs ->] | (cs & post & ->)].
    + left. by exists (c :: cs).
    + right. by exists (c :: cs), post.
  - right. by exists [], items.
Qed.

Lemma processed_yields cs : processed (SDK.Yield <$> cs) = cs.
Proof. induction cs as [|c cs IH]; [done|]. cbn. by rewrite IH. Qed.

Lemma processed_throw cs post :
  processed ((SDK.Yield <$> cs) ++ SDK.Throw :: post) = cs.
Proof. induction cs as [|c cs IH]; [done|]. cbn. by rewrite IH. Qed.

(** Where an exchange whose send resolves leaves the component: in the
    world the processed chunks made, pending, ended, or caught. *)
Lemma handleSubmit_responds w items tl :
  accepted w →
  let wf := (streaming w (processed items)).2 in
  (handleSubmit (responds items tl) w).2 = wf
  ∨ (handleSubmit (responds items tl) w).2 = withIsLoading false wf
  ∨ (handleSubmit (responds items tl) w).2 = withIsLoading false (caught wf).
Proof.
  intros Hacc wf. subst wf.
  destruct (items_split items) as [[cs ->] | (cs & post & ->)].
  - rewrite processed_yields. destruct tl.
    + rewrite (handleSubmit_exhausted _ _ Hacc cs) by done. auto.
    + rewrite (handleSubmit_stalls _ _ Hacc cs) by done. auto.
  - rewrite processed_throw.
    rewrite (handleSubmit_iteration_fault _ _ Hacc cs post tl) by done. auto.
Qed.

(** ** The loop over the chunks *)

Lemma afterChunks_cons i r c cs acc w :
  afterChunks i r (c :: cs) (acc, w)
  = afterChunks i r cs
      (match loopBody i r c acc w with
       | (Normal acc', w') => (acc', w')
       | (_, w') => (acc, w')
       end).
Proof. done. Qed.

Lemma afterChunks_snoc i r c cs st :
  afterChunks i r (cs ++ [c]) st
  = let st' := afterChunks i r cs st in
    match loopBody i r c st'.1 st'.2 with
    | (Normal acc', w') => (acc', w')
    | (_, w') => (st'.1, w')
    end.
Proof. unfold afterChunks. by rewrite foldl_app. Qed.

Lemma delta_falsy c : truthy_opt (SDK.text c) = false → delta c = [].
Proof. unfold delta. by destruct (SDK.text c) as [[|]|]. Qed.

(** The accumulator is the ordered concatenation of the deltas. *)
Lemma afterChunks_content i r cs acc w :
  (afterChunks i r cs (acc, w)).1 = acc ++ concat (delta <$> cs).
Proof.
  revert acc w. induction cs as [|c cs IH]; intros acc w.
  - cbn. by rewrite app_nil_r.
  - rewrite afterChunks_cons, loopBody_eq. cbn.
    destruct (truthy_opt (SDK.text c)) eqn:Ht; rewrite IH.
    + by rewrite <- app_assoc.
    + by rewrite (delta_falsy c Ht).
Qed.

(** The loop touches neither the input field, the pending flag nor the
    clock. *)
Lemma afterChunks_frame i r cs acc w :
  let w' := (afterChunks i r cs (acc, w)).2 in
  input w' = input w ∧ isLoading w' = isLoading w
  ∧ clock w' = clock w ∧ delays w' = delays w.
Proof.
  revert acc w. induction cs as [|c cs IH]; intros acc w; [done|].
  rewrite afterChunks_cons, loopBody_eq. cbn.
  destruct (truthy_opt (SDK.text c)).
  - by destruct (IH (acc ++ delta c) (withMessages
      (updateById i (acc ++ delta c)
         (if bool_decide (0 < length (default []
               (alter (λ arr, match groundingChunksOf c with
                              | Some g => forEach g arr | None => arr end)
                  r (arrays w) !! r)))%nat
          then Some r else None))
      (withArrays (alter (λ arr, match groundingChunksOf c with
                              | Some g => forEach g arr | None => arr end) r)
         w))) as (-> & -> & -> & ->).
  - by destruct (IH acc (withArrays
      (alter (λ arr, match groundingChunksOf c with
                     | Some g => forEach g arr | None => arr end) r) w))
      as (-> & -> & -> & ->).
Qed.

(** The array of the exchange collects the citations of the chunks; the
    other arrays stay. *)
Lemma afterChunks_arrays i r cs acc w :
  arrays (afterChunks i r cs (acc, w)).2
  = alter (λ arr, foldl collect arr (citations cs)) r (arrays w).
Proof.
  revert acc w. induction cs as [|c cs IH]; intros acc w.
  - cbn. symmetry. by apply list_alter_id.
  - rewrite afterChunks_cons, loopBody_eq. cbn.
    assert (∀ acc' w', arrays w'
              = alter (λ arr, match groundingChunksOf c with
                              | Some g => forEach g arr | None => arr end)
                  r (arrays w) →
            arrays (afterChunks i r cs (acc', w')).2
            = alter (λ arr, foldl collect arr
                              (default [] (groundingChunksOf c)
                               ++ citations cs)) r (arrays w)) as Hstep.
    { intros acc' w' Hw'. rewrite IH, Hw', list_alter_alter_eq.
      apply list_alter_ext; [|done]. intros arr _. cbn.
      rewrite foldl_app. by destruct (groundingChunksOf c). }
    destruct (truthy_opt (SDK.text c)); by apply Hstep.
Qed.

Global Instance patchedAt_refl i : Reflexive (patchedAt i).
Proof. by repeat split. Qed.

Global Instance patchedAt_trans i : Transitive (patchedAt i).
Proof.
  intros m1 m2 m3 (Ha&?&?&Hb) (?&?&?&Hc). repeat split; try congruence.
  intros Hne. rewrite Hc, Hb; congruence.
Qed.

Lemma updateById_patchedAt i c s prev :
  Forall2 (patchedAt i) prev (updateById i c s prev).
Proof.
  unfold updateById. apply Forall2_fmap_r, Forall_Forall2_diag, Forall_forall.
  intros m _. cbn. case_decide; [|reflexivity].
  by repeat split.
Qed.

Lemma afterChunks_messages i r cs acc w :
  Forall2 (patchedAt i) (messages w) (messages (afterChunks i r cs (acc, w)).2).
Proof.
  revert acc w. induction cs as [|c cs IH]; intros acc w.
  - reflexivity.
  - rewrite afterChunks_cons, loopBody_eq. cbn.
    destruct (truthy_opt (SDK.text c)); [|exact (IH _ (withArrays _ w))].
    etrans; [|apply IH]. cbn. apply updateById_patchedAt.
Qed.

(** A message that carries the id of the exchange and the accumulated
    content keeps doing so, and the only array it is ever given is the
    array of the exchange. *)
Lemma afterChunks_placeholder i r cs acc w n m :
  messages w !! n = Some m → id m = i → content m = acc →
  sources m = None ∨ sources m = Some r →
  ∃ m', messages (afterChunks i r cs (acc, w)).2 !! n = Some m'
        ∧ id m' = i ∧ role m' = role m ∧ timestamp m' = timestamp m
        ∧ content m' = (afterChunks i r cs (acc, w)).1
        ∧ (sources m' = None ∨ sources m' = Some r).
Proof.
  revert acc w m. induction cs as [|c cs IH]; intros acc w m Hm Hid Hc Hs.
  - exists m. by repeat split.
  - rewrite afterChunks_cons, loopBody_eq. cbn.
    destruct (truthy_opt (SDK.text c));
      [|by apply (IH _ (withArrays _ w))].
    match goal with
    | |- context [afterChunks _ _ _
                    (?a, withMessages (updateById _ _ ?s) ?w0)] =>
        destruct (IH a (withMessages (updateById i a s) w0)
                    (mkMessage (id m) (role m) a (timestamp m) s))
          as (m' & ? & ? & ? & ? & ? & ?); [| done | done | |]
    end.
    { cbn. rewrite (updateById_lookup _ _ _ _ _ _ Hm).
      by rewrite decide_True. }
    { cbn. case_bool_decide; auto. }
    exists m'. by repeat split.
Qed.

(** ** The start of an exchange *)

Lemma assistantMessageIdOf_reading w :
  assistantMessageIdOf w = toString (reading 4 w + 1).
Proof. reflexivity. Qed.

Lemma messages_submitted w :
  messages (submitted w) = messages w ++ [userMessageIn w].
Proof. reflexivity. Qed.

Lemma messages_opened w :
  messages (opened (submitted w))
  = messages w ++ [userMessageIn w; placeholderIn w].
Proof.
  change (messages (opened (submitted w)))
    with ((messages w ++ [userMessageIn w]) ++ [placeholderIn w]).
  by rewrite <- app_assoc.
Qed.

Lemma messages_caught w :
  messages (caught w) = messages w ++ [apology (reading 1 w) (reading 2 w)].
Proof. reflexivity. Qed.

Lemma arrays_opened w :
  arrays (opened (submitted w)) = arrays w ++ [[]].
Proof. reflexivity. Qed.

Lemma reading_S k w : reading k w ≤ reading (S k) w.
Proof. unfold reading. cbn. apply clock_tick. Qed.

Lemma reading_mono k1 k2 w : (k1 ≤ k2)%nat → reading k1 w ≤ reading k2 w.
Proof.
  induction 1 as [|k2 _ IH]; [done|].
  etrans; [apply IH|apply reading_S].
Qed.

Lemma placeholder_lookup w cs :
  ∃ m, messages (streaming w cs).2 !! S (length (messages w)) = Some m
       ∧ id m = assistantMessageIdOf w ∧ role m = assistant
       ∧ timestamp m = reading 5 w
       ∧ content m = (streaming w cs).1
       ∧ (sources m = None ∨ sources m = Some (length (arrays w))).
Proof.
  unfold streaming.
  destruct (afterChunks_placeholder (assistantMessageIdOf w)
              (length (arrays w)) cs [] (opened (submitted w))
              (S (length (messages w))) (placeholderIn w))
    as (m & ? & ? & ? & ? & ? & ?); [|done|done|by left|by exists m].
  rewrite messages_opened.
  by rewrite lookup_app_r, Nat.sub_succ_l, Nat.sub_diag by lia.
Qed.

(** C1.  In the exchange a submission starts, the local [assistantContent]
    after the first [k] chunks is the concatenation, in arrival order, of
    the text deltas of these chunks; so is the content of the placeholder
    in the store once the loop has processed these [k] chunks, whether the
    stream then waits for its next chunk, ends or faults; and when the
    stream is exhausted the final content is the concatenation of all the
    deltas. *)
Theorem content_is_ordered_concatenation w cs k :
  accepted w →
  (streaming w (take k cs)).1 = concat (delta <$> take k cs)
  ∧ (∀ items tl,
       processed items = take k cs →
       ∃ m,
         messages (handleSubmit (responds items tl) w).2
           !! S (length (messages w)) = Some m
         ∧ role m = assistant
         ∧ content m = concat (delta <$> take k cs))
  ∧ (∃ m,
       messages (handleSubmit (responds (SDK.Yield <$> cs) SDK.Exhausted) w).2
         !! S (length (messages w)) = Some m
       ∧ role m = assistant
       ∧ content m = concat (delta <$> cs)).
Proof.
  intros Hacc.
  assert (∀ cs', (streaming w cs').1 = concat (delta <$> cs')) as Hcontent.
  { intros cs'. unfold streaming. by rewrite afterChunks_content. }
  assert (∀ items tl, ∃ m,
    messages (handleSubmit (responds items tl) w).2
      !! S (length (messages w)) = Some m
    ∧ role m = assistant
    ∧ content m = concat (delta <$> processed items)) as Hstore.
  { intros items tl.
    destruct (placeholder_lookup w (processed items))
      as (m & Hm & _ & Hrole & _ & Hc & _).
    exists m. rewrite <- Hcontent, <- Hc. split; [|done].
    destruct (handleSubmit_responds w items tl Hacc) as [-> | [-> | ->]];
      [done..|].
    cbn [withIsLoading messages]. rewrite messages_caught.
    rewrite lookup_app_l; [done|]. by eapply lookup_lt_Some. }
  split; [done|]. split.
  - intros items tl <-. apply Hstore.
  - destruct (Hstore (SDK.Yield <$> cs) SDK.Exhausted) as (m & ? & ? & Hc).
    rewrite processed_yields in Hc. by exists m.
Qed.

(** ** The source merge *)

Lemma find_uri_None (u : jsstring) (arr : list Source) :
  find (λ s, bool_decide (uri s = u)) arr = None ↔ u ∉ uri <$> arr.
Proof.
  induction arr as [|s arr IH]; cbn.
  - split; [|done]. intros _. apply not_elem_of_nil.
  - rewrite not_elem_of_cons. case_bool_decide as Hs; split.
    + done.
    + intros [Hne _]. by destruct Hne.
    + intros Hf. split; [congruence|by apply IH].
    + intros [_ Hn]. by apply IH.
Qed.

Lemma collect_validPair arr c :
  collect arr c
  = match validPair c with
    | Some p => if decide (uri p ∈ uri <$> arr) then arr else arr ++ [p]
    | None => arr
    end.
Proof.
  unfold collect, validPair.
  destruct (SDK.web c) as [[[u|] [t|]]|]; cbn; try done.
  destruct (truthy u && truthy t); [|done]. cbn.
  destruct (find _ arr) eqn:Hfind.
  - rewrite decide_True; [done|].
    destruct (decide (u ∈ uri <$> arr)) as [|Hn]; [done|].
    apply find_uri_None in Hn. congruence.
  - rewrite decide_False; [done|]. by apply find_uri_None.
Qed.

(** The loop of [collect] refines [firstSeen] over the valid pairs. *)
Lemma foldl_collect arr l :
  foldl collect arr l
  = arr ++ filter (λ q, uri q ∉ uri <$> arr) (firstSeen (validPairs l)).
Proof.
  revert arr. induction l as [|c l IH]; intros arr.
  - cbn. by rewrite app_nil_r.
  - cbn [foldl]. rewrite collect_validPair.
    change (validPairs (c :: l))
      with (match validPair c with
            | Some p => p :: validPairs l
            | None => validPairs l
            end).
    destruct (validPair c) as [p|]; cbn [firstSeen]; [|apply IH].
    case_decide as Hin.
    + rewrite IH. f_equal. rewrite filter_cons_False by tauto.
      rewrite list_filter_filter. apply list_filter_iff.
      intros q. split; [|tauto]. intros Hq. split; [done|].
      intros Heq. by rewrite Heq in Hq.
    + rewrite IH, <- app_assoc. f_equal. cbn [app].
      rewrite filter_cons_True by done. f_equal.
      rewrite list_filter_filter. apply list_filter_iff.
      intros q. rewrite fmap_app, not_elem_of_app. cbn.
      rewrite not_elem_of_cons.
      pose proof (not_elem_of_nil (uri q)). tauto.
Qed.

Lemma firstSeen_sublist l : firstSeen l `sublist_of` l.
Proof.
  induction l as [|p l IH]; [done|]. cbn.
  apply sublist_skip. etrans; [apply sublist_filter|done].
Qed.

Lemma firstSeen_uris l u : u ∈ uri <$> firstSeen l ↔ u ∈ uri <$> l.
Proof.
  induction l as [|p l IH]; [done|]. cbn.
  rewrite !elem_of_cons, <- IH, !list_elem_of_fmap.
  setoid_rewrite list_elem_of_filter.
  destruct (decide (u = uri p)) as [->|Hne]; [by split; left|].
  split.
  - intros [?|(q & -> & _ & ?)]; [done|]. right. by exists q.
  - intros [?|(q & -> & ?)]; [done|]. right. exists q.
    repeat split; [congruence|done].
Qed.

Lemma firstSeen_NoDup l : NoDup (uri <$> firstSeen l).
Proof.
  induction l as [|p l IH]; cbn; [constructor|].
  apply NoDup_cons. split.
  - rewrite list_elem_of_fmap. intros (q & Hq & Hin).
    apply list_elem_of_filter in Hin as [Hne _]. by apply Hne.
  - eapply sublist_NoDup; [exact IH|].
    apply fmap_sublist, sublist_filter.
Qed.

Lemma filter_none {A} (P : A → Prop) `{!∀ x, Decision (P x)} (l : list A) :
  (∀ x, x ∈ l → ¬ P x) → filter P l = [].
Proof.
  induction l as [|x l IH]; intros Hl; [done|].
  rewrite filter_cons_False by (apply Hl; left).
  apply IH. intros y Hy. apply Hl. by right.
Qed.

Lemma filter_all {A} (P : A → Prop) `{!∀ x, Decision (P x)} (l : list A) :
  (∀ x, x ∈ l → P x) → filter P l = l.
Proof.
  induction l as [|x l IH]; intros Hl; [done|].
  rewrite filter_cons_True by (apply Hl; left).
  f_equal. apply IH. intros y Hy. apply Hl. by right.
Qed.

Lemma foldl_collect_nil l :
  foldl collect [] l = firstSeen (validPairs l).
Proof.
  rewrite foldl_collect. cbn.
  apply filter_all. intros q _. apply not_elem_of_nil.
Qed.

(** A key that a duplicate-free list holds is held exactly once. *)
Lemma NoDup_once {A B} `{EqDecision B} (f : A → B) (l : list A) (y : B) :
  NoDup (f <$> l) → y ∈ f <$> l →
  length (filter (λ x, f x = y) l) = 1%nat.
Proof.
  induction l as [|x l IH]; intros Hnd Hin.
  - by apply elem_of_nil in Hin.
  - rewrite fmap_cons in Hnd, Hin.
    apply NoDup_cons in Hnd as [Hx Hnd].
    destruct (decide (f x = y)) as [<-|Hne].
    + rewrite filter_cons_True by done. cbn. f_equal.
      rewrite filter_none; [done|].
      intros z Hz Heq. apply Hx. rewrite <- Heq.
      by apply list_elem_of_fmap_2.
    + rewrite filter_cons_False by done. apply IH; [done|].
      apply elem_of_cons in Hin as [?|?]; congruence.
Qed.

Lemma validPair_truthy c p :
  validPair c = Some p → uri p ≠ [] ∧ title p ≠ [].
Proof.
  unfold validPair. destruct (SDK.web c) as [[[u|] [t|]]|]; cbn; try done.
  destruct (truthy u && truthy t) eqn:H; [|done].
  apply andb_true_iff in H as [?%truthy_true ?%truthy_true].
  by intros [= <-].
Qed.

(** What the array of an exchange holds once the chunks are processed. *)
Lemma streaming_sources w cs :
  arrays (streaming w cs).2 !! length (arrays w)
  = Some (firstSeen (validPairs (citations cs))).
Proof.
  unfold streaming. rewrite afterChunks_arrays, arrays_opened.
  rewrite list_lookup_alter_eq, list_lookup_middle by done. cbn.
  by rewrite foldl_collect_nil.
Qed.

(** C2.  The array [sources] of an exchange, once the loop has processed
    the chunks of the stream, holds the valid citation pairs (uri and
    title both present and non-empty) of these chunks, each uri once,
    where it was first seen: it is a subsequence of the valid pairs
    delivered, no uri occurs twice, the uri of every valid pair delivered
    occurs exactly once, every entry has a uri and a title, and feeding
    citations already delivered again leaves it as it is. *)
Theorem source_merge_first_seen w items tl :
  accepted w →
  let delivered := citations (processed items) in
  let srcs := firstSeen (validPairs delivered) in
  arrays (handleSubmit (responds items tl) w).2 !! length (arrays w)
  = Some srcs
  ∧ srcs `sublist_of` validPairs delivered
  ∧ NoDup (uri <$> srcs)
  ∧ (∀ c p, c ∈ delivered → validPair c = Some p →
       length (filter (λ s, uri s = uri p) srcs) = 1%nat)
  ∧ (∀ s, s ∈ srcs → uri s ≠ [] ∧ title s ≠ [])
  ∧ (∀ again, again ⊆ delivered → forEach again srcs = srcs).
Proof.
  intros Hacc delivered srcs. subst srcs delivered.
  split; [|split; [|split; [|split; [|split]]]].
  - rewrite <- (streaming_sources w).
    by destruct (handleSubmit_responds w items tl Hacc) as [-> | [-> | ->]].
  - apply firstSeen_sublist.
  - apply firstSeen_NoDup.
  - intros c p Hc Hp. apply NoDup_once; [apply firstSeen_NoDup|].
    apply firstSeen_uris, list_elem_of_fmap_2, list_elem_of_omap. eauto.
  - intros s Hs.
    eapply elem_of_sublist in Hs; [|apply firstSeen_sublist].
    apply list_elem_of_omap in Hs as (c & _ & Hc).
    by apply validPair_truthy in Hc.
  - intros again Hsub. unfold forEach. rewrite foldl_collect.
    rewrite filter_none; [by rewrite app_nil_r|].
    intros q Hq Hn. apply Hn. apply firstSeen_uris.
    eapply elem_of_sublist in Hq; [|apply firstSeen_sublist].
    apply list_elem_of_omap in Hq as (c & Hc & Hv).
    apply list_elem_of_fmap_2, list_elem_of_omap. eauto.
Qed.

(** ** Faults *)

Lemma beforeThrow_Some items cs :
  beforeThrow items = Some cs →
  ∃ post, items = (SDK.Yield <$> cs) ++ SDK.Throw :: post.
Proof.
  revert cs. induction items as [|[c|] items IH]; intros cs H; cbn in H.
  - done.
  - destruct (beforeThrow items) as [cs'|]; [|done].
    injection H as <-. destruct (IH cs' eq_refl) as [post ->].
    by exists post.
  - injection H as <-. by exists items.
Qed.

(** C3.  When the client faults while its context is created, while the
    message is sent or while the stream is iterated, [handleSubmit]
    completes normally (the fault does not reach its caller); its store is
    the store in which the fault found the exchange, that is the store of
    the run that hangs at that point, followed by exactly one new assistant
    message that carries the fixed apology and no sources; the arrays are
    those of that store; the pending flag, which the fault finds set, is
    cleared; and the items that follow the fault in the stream have no
    effect. *)
Theorem fault_appends_apology model frozenModel w :
  accepted w →
  frozen model = Some frozenModel →
  ∃ w' m,
    handleSubmit model w = (Normal (), w')
    ∧ (handleSubmit frozenModel w).1 = Suspended
    ∧ messages w' = messages (handleSubmit frozenModel w).2 ++ [m]
    ∧ role m = assistant
    ∧ content m
      = lit "I'm sorry, I encountered an error. Please try again."
    ∧ sources m = None
    ∧ arrays w' = arrays (handleSubmit frozenModel w).2
    ∧ isLoading (handleSubmit frozenModel w).2 = true
    ∧ isLoading w' = false
    ∧ (∀ cs post tl post' tl',
         model = responds ((SDK.Yield <$> cs) ++ SDK.Throw :: post) tl →
         handleSubmit
           (responds ((SDK.Yield <$> cs) ++ SDK.Throw :: post') tl') w
         = (Normal (), w')).
Proof.
  intros Hacc Hfrozen. unfold frozen in Hfrozen.
  assert (∀ wf, ∃ m, messages (withIsLoading false (caught wf))
                     = messages wf ++ [m]
                   ∧ role m = assistant
                   ∧ content m = apologyText
                   ∧ sources m = None) as Hm.
  { intros wf. by exists (apology (reading 1 wf) (reading 2 wf)). }
  assert (handleSubmit (SDK.mkCapability false false SDK.NeverSettles) w
          = (Suspended, tick (submitted w))) as Hpending
    by (by apply handleSubmit_send_pending).
  destruct (SDK.clientThrows model) eqn:H1;
    [|destruct (SDK.createThrows model) eqn:H2]; cbn in Hfrozen.
  - injection Hfrozen as <-. rewrite Hpending.
    destruct (Hm (submitted w)) as (m & ? & ? & ? & ?).
    exists (withIsLoading false (caught (submitted w))), m.
    rewrite (handleSubmit_client_fault _ _ Hacc H1).
    repeat split; try done. by intros ????? ->.
  - injection Hfrozen as <-. rewrite Hpending.
    destruct (Hm (tick (submitted w))) as (m & ? & ? & ? & ?).
    exists (withIsLoading false (caught (tick (submitted w)))), m.
    rewrite (handleSubmit_create_fault _ _ Hacc H1 H2).
    repeat split; try done. by intros ????? ->.
  - destruct (SDK.send model) as [| |items tl] eqn:H3; [|done|].
    + injection Hfrozen as <-. rewrite Hpending.
      destruct (Hm (tick (submitted w))) as (m & ? & ? & ? & ?).
      exists (withIsLoading false (caught (tick (submitted w)))), m.
      rewrite (handleSubmit_send_fault _ _ Hacc H1 H2 H3).
      repeat split; try done. by intros ????? ->.
    + destruct (beforeThrow items) as [cs|] eqn:Hcs; [|done].
      cbn in Hfrozen. injection Hfrozen as <-.
      apply beforeThrow_Some in Hcs as [post ->].
      destruct (Hm (streaming w cs).2) as (m & ? & ? & ? & ?).
      exists (withIsLoading false (caught (streaming w cs).2)), m.
      rewrite (handleSubmit_iteration_fault _ _ Hacc cs post tl H1 H2 H3).
      rewrite (handleSubmit_stalls _ _ Hacc cs) by done.
      repeat split; try done.
      { cbn [snd]. unfold streaming.
        by destruct (afterChunks_frame (assistantMessageIdOf w)
                       (length (arrays w)) cs [] (opened (submitted w)))
          as (_ & -> & _). }
      intros cs' post0 tl0 post' tl' ->. cbn in H3.
      injection H3 as Heq ->.
      assert (cs' = cs) as ->.
      { clear -Heq. revert cs Heq.
        induction cs' as [|c cs' IH]; intros [|c0 cs] Heq;
          simplify_eq/=; [done|]. f_equal. by apply IH. }
      by rewrite (handleSubmit_iteration_fault _ _ Hacc cs post' tl').
Qed.

(** ** The shape of an exchange *)

(** The world in which an accepted submission leaves the component: the
    exchange got as far as [wf], where it hangs, ends, or is caught. *)
Lemma handleSubmit_shape model w :
  accepted w →
  ∃ wf,
    (wf = submitted w ∨ wf = tick (submitted w)
     ∨ ∃ cs, wf = (streaming w cs).2)
    ∧ ((handleSubmit model w).2 = wf
       ∨ (handleSubmit model w).2 = withIsLoading false wf
       ∨ (handleSubmit model w).2 = withIsLoading false (caught wf)).
Proof.
  intros Hacc.
  destruct (SDK.clientThrows model) eqn:H1;
    [|destruct (SDK.createThrows model) eqn:H2;
      [|destruct (SDK.send model) as [| |items tl] eqn:H3]].
  - exists (submitted w).
    rewrite (handleSubmit_client_fault _ _ Hacc H1). auto.
  - exists (tick (submitted w)).
    rewrite (handleSubmit_create_fault _ _ Hacc H1 H2). auto.
  - exists (tick (submitted w)).
    rewrite (handleSubmit_send_fault _ _ Hacc H1 H2 H3). auto.
  - exists (tick (submitted w)).
    rewrite (handleSubmit_send_pending _ _ Hacc H1 H2 H3). auto.
  - destruct (items_split items) as [[cs ->] | (cs & post & ->)].
    + exists (streaming w cs).2. split; [eauto|]. destruct tl.
      * rewrite (handleSubmit_exhausted _ _ Hacc cs H1 H2 H3). auto.
      * rewrite (handleSubmit_stalls _ _ Hacc cs H1 H2 H3). auto.
    + exists (streaming w cs).2. split; [eauto|].
      rewrite (handleSubmit_iteration_fault _ _ Hacc cs post tl H1 H2 H3).
      auto.
Qed.

Lemma userMessage_not_patched w :
  id (userMessageIn w) ≠ assistantMessageIdOf w.
Proof.
  rewrite assistantMessageIdOf_reading. cbn. intros H%toString_inj.
  pose proof (reading_mono 1 4 w ltac:(lia)). lia.
Qed.

Lemma streaming_messages w cs :
  ∃ old p,
    messages (streaming w cs).2 = old ++ [userMessageIn w; p]
    ∧ Forall2 (patchedAt (assistantMessageIdOf w)) (messages w) old
    ∧ patchedAt (assistantMessageIdOf w) (placeholderIn w) p.
Proof.
  pose proof (afterChunks_messages (assistantMessageIdOf w)
                (length (arrays w)) cs [] (opened (submitted w))) as H.
  fold (streaming w cs) in H. rewrite messages_opened in H.
  apply Forall2_app_inv_l in H as (old & new & Hold & Hnew & ->).
  apply Forall2_cons_inv_l in Hnew as (u & new' & Hu & Hnew & ->).
  apply Forall2_cons_inv_l in Hnew as (p & new'' & Hp & Hnew & ->).
  apply Forall2_nil_inv_l in Hnew as ->.
  destruct Hu as (_ & _ & _ & Hu).
  rewrite (Hu (userMessage_not_patched w)).
  by exists old, p.
Qed.

(** An accepted submission keeps the messages of the store in place,
    patching at most those that carry the id of its placeholder, and adds
    its user message right after them. *)
Lemma handleSubmit_messages model w :
  accepted w →
  ∃ old rest,
    messages (handleSubmit model w).2 = old ++ userMessageIn w :: rest
    ∧ Forall2 (patchedAt (assistantMessageIdOf w)) (messages w) old.
Proof.
  intros Hacc.
  assert (∀ wf, (wf = submitted w ∨ wf = tick (submitted w)
                 ∨ ∃ cs, wf = (streaming w cs).2) →
          ∃ old rest, messages wf = old ++ userMessageIn w :: rest
            ∧ Forall2 (patchedAt (assistantMessageIdOf w)) (messages w) old)
    as Hwf.
  { intros wf [-> | [-> | [cs ->]]].
    - by exists (messages w), [].
    - by exists (messages w), [].
    - destruct (streaming_messages w cs) as (old & p & -> & ? & _).
      by exists old, [p]. }
  destruct (handleSubmit_shape model w Hacc) as (wf & Hshape & Hend).
  destruct (Hwf wf Hshape) as (old & rest & Hms & Hold).
  destruct Hend as [-> | [-> | ->]].
  - by exists old, rest.
  - by exists old, rest.
  - exists old, (rest ++ [apology (reading 1 wf) (reading 2 wf)]).
    split; [|done]. cbn [withIsLoading messages].
    rewrite messages_caught, Hms. by rewrite <- app_assoc.
Qed.

(** ** What a submission appends *)

(** C4, as stated, fails: when the client cannot be created the handler
    appends the user message and then the apology; no placeholder is ever
    appended. *)
Lemma no_placeholder_when_creation_faults :
  let w := session [Change (lit "Hello")] (mount 1762153200000 []) in
  let model := SDK.mkCapability true false SDK.Rejects in
  accepted w
  ∧ ¬ ∃ u p rest,
        messages (handleSubmit model w).2 = messages w ++ u :: p :: rest
        ∧ role u = user ∧ role p = assistant ∧ content p = [].
Proof.
  split.
  - split; [by vm_compute|reflexivity].
  - intros (u & p & rest & Heq & _ & _ & Hp).
    vm_compute in Heq. injection Heq as _ <- _. vm_compute in Hp. done.
Qed.

(** C4, amended.  An accepted submission appends exactly one user
    message.  When the client is created and the send resolves, the loop
    over the chunks starts, before any chunk is processed, from a store
    that holds after the former messages this user message and then
    exactly one placeholder, an assistant message with empty content and
    no sources.  When the creation or the send faults, what follows the
    user message is the apology, and no placeholder; while the send is
    pending, nothing follows it. *)
Theorem placeholder_follows_user_message model w :
  accepted w →
  let u := userMessageIn w in
  let p := placeholderIn w in
  role u = user ∧ role p = assistant ∧ content p = [] ∧ sources p = None
  ∧ (∀ items tl,
       SDK.clientThrows model = false → SDK.createThrows model = false →
       SDK.send model = SDK.Resolves items tl →
       ∃ w2, messages w2 = messages w ++ [u; p]
             ∧ handleSubmit model w
               = tryCatchFinally
                   (forAwait (id p) (length (arrays w)) items tl []
                      ≫= λ _, mret ())
                   catchBlock finallyBlock w2)
  ∧ (SDK.clientThrows model = true ∨ SDK.createThrows model = true
     ∨ SDK.send model = SDK.Rejects →
     ∃ m, messages (handleSubmit model w).2 = messages w ++ [u; m]
          ∧ content m = apologyText)
  ∧ (SDK.clientThrows model = false → SDK.createThrows model = false →
     SDK.send model = SDK.NeverSettles →
     messages (handleSubmit model w).2 = messages w ++ [u]).
Proof.
  intros Hacc u p. subst u p.
  split; [done|]. split; [done|]. split; [done|]. split; [done|].
  split; [|split].
  - intros items tl H1 H2 H3. exists (opened (submitted w)).
    split; [apply messages_opened|].
    by apply handleSubmit_resolves.
  - intros Hfault.
    assert (∀ wf, messages wf = messages w ++ [userMessageIn w] →
            ∃ m, messages (withIsLoading false (caught wf))
                 = messages w ++ [userMessageIn w; m]
               ∧ content m = apologyText) as Hm.
    { intros wf Hwf. exists (apology (reading 1 wf) (reading 2 wf)).
      split; [|done]. cbn [withIsLoading messages].
      by rewrite messages_caught, Hwf, <- app_assoc. }
    destruct (SDK.clientThrows model) eqn:H1;
      [|destruct (SDK.createThrows model) eqn:H2].
    + rewrite (handleSubmit_client_fault _ _ Hacc H1). by apply Hm.
    + rewrite (handleSubmit_create_fault _ _ Hacc H1 H2). by apply Hm.
    + destruct Hfault as [?|[?|H3]]; [done..|].
      rewrite (handleSubmit_send_fault _ _ Hacc H1 H2 H3). by apply Hm.
  - intros H1 H2 H3.
    by rewrite (handleSubmit_send_pending _ _ Hacc H1 H2 H3).
Qed.

(** C6, as stated, fails: the user message carries the input as it was
    typed, blanks included. *)
Lemma user_message_is_not_trimmed :
  let w := session [Change (lit "  Hello ")] (mount 1762153200000 []) in
  let model := responds [] SDK.Exhausted in
  accepted w
  ∧ ∃ m, messages (handleSubmit model w).2 !! 1%nat = Some m
         ∧ role m = user
         ∧ content m = lit "  Hello "
         ∧ content m ≠ trim (input w).
Proof.
  split.
  - split; [by vm_compute|reflexivity].
  - eexists. split; [by vm_compute|]. split; [done|].
    split; [done|]. by vm_compute.
Qed.

(** C6, amended.  The user message an accepted submission appends, right
    after the former messages, carries the input text as it is, untrimmed;
    the trimmed text only decides whether the submission is accepted. *)
Theorem user_message_carries_raw_input model w :
  accepted w →
  ∃ m, messages (handleSubmit model w).2 !! length (messages w) = Some m
       ∧ role m = user
       ∧ content m = input w
       ∧ id m = toString (reading 1 w)
       ∧ sources m = None.
Proof.
  intros Hacc.
  destruct (handleSubmit_messages model w Hacc) as (old & rest & -> & Hold).
  exists (userMessageIn w). split; [|done].
  rewrite (Forall2_length _ _ _ Hold). by apply list_lookup_middle.
Qed.

(** ** Rejected submissions *)

Lemma trimStart_whitespace s :
  Forall (λ c, isWhiteSpace c = true) s → trimStart s = [].
Proof. induction 1 as [|c s Hc _ IH]; [done|]. cbn. by rewrite Hc. Qed.

Lemma trim_whitespace s :
  Forall (λ c, isWhiteSpace c = true) s → trim s = [].
Proof. intros H. unfold trim. by rewrite (trimStart_whitespace s H). Qed.

(** C5.  When the input is empty or made of white space only, so that
    nothing is left of it after trimming, or when an exchange is pending,
    [handleSubmit] completes normally and leaves the whole state as it
    is: the messages and their number, the pending flag, the input field,
    the arrays and the clock. *)
Theorem rejected_submission_is_noop model w :
  Forall (λ c, isWhiteSpace c = true) (input w)
  ∨ trim (input w) = [] ∨ isLoading w = true →
  handleSubmit model w = (Normal (), w)
  ∧ messages (handleSubmit model w).2 = messages w
  ∧ length (messages (handleSubmit model w).2) = length (messages w).
Proof.
  intros H.
  assert (handleSubmit model w = (Normal (), w)) as ->; [|done].
  apply handleSubmit_rejected.
  destruct H as [H|[H|H]]; auto using trim_whitespace.
Qed.

(** C8.  Patching an id that no message of the store carries leaves the
    list of messages as it is, entry by entry and field by field, adds no
    entry, and the state update completes normally with the state
    unchanged. *)
Theorem updateById_unknown_id_is_noop i c s w :
  i ∉ id <$> messages w →
  updateById i c s (messages w) = messages w
  ∧ length (updateById i c s (messages w)) = length (messages w)
  ∧ setMessages (updateById i c s) w = (Normal (), w).
Proof.
  intros Hi. pose proof (updateById_unknown i c s _ Hi) as Heq.
  split; [done|]. split; [by rewrite Heq|].
  unfold setMessages, withMessages. rewrite Heq. by destruct w.
Qed.

(** ** Which chunks patch the store *)

(** C7, as stated, fails: a chunk that carries a citation and no text
    changes the array of sources, and the store is not patched; at the end
    of the exchange the placeholder still has no sources. *)
Lemma citation_only_chunk_is_not_patched :
  let w := session [Change (lit "Weather?")] (mount 1762153200000 []) in
  let chunk :=
    SDK.mkResponse None
      (Some [SDK.mkCandidate (Some (SDK.mkGroundingMetadata (Some
         [SDK.mkGroundingChunk
            (Some (SDK.mkWeb (Some (lit "https://x")) (Some (lit "X"))))])))])
  in
  arrays (streaming w []).2 !! 0%nat = Some []
  ∧ arrays (streaming w [chunk]).2 !! 0%nat
    = Some [mkSource (lit "https://x") (lit "X")]
  ∧ messages (streaming w [chunk]).2 = messages (streaming w []).2
  ∧ messages (streaming w [chunk]).2
    ≠ updateById (assistantMessageIdOf w) (streaming w [chunk]).1 (Some 0%nat)
        (messages (streaming w []).2)
  ∧ ∃ m,
      messages (handleSubmit (responds [SDK.Yield chunk] SDK.Exhausted) w).2
        !! 2%nat = Some m
      ∧ id m = assistantMessageIdOf w
      ∧ sources m = None.
Proof.
  split; [by vm_compute|]. split; [by vm_compute|]. split; [by vm_compute|].
  split; [by vm_compute|].
  eexists. split; [by vm_compute|]. split; by vm_compute.
Qed.

(** ** Message ids *)

(** C9, on the code: the ids are clock readings, and two readings may
    agree.  When the client cannot be created, the apology takes the
    reading the user message took in the same millisecond; when the stream
    faults one millisecond after the placeholder was made, the apology
    takes the id the placeholder was given, its reading plus one.  In both
    sessions two messages of the store carry the same id. *)
Lemma ids_collide_within_an_exchange :
  let noClient := SDK.mkCapability true false SDK.Rejects in
  let w1 := session [Change (lit "Hello"); Submit noClient]
              (mount 1762153200000 [5000; 0; 0; 0]%N) in
  let w2 := session [Change (lit "Hello");
                     Submit (responds [SDK.Throw] SDK.Exhausted)]
              (mount 1762153200000 [5000; 0; 0; 0; 0; 1; 0]%N) in
  reachable w1
  ∧ id <$> messages w1
    = [lit "1"; lit "1762153205000"; lit "1762153205000"]
  ∧ ¬ NoDup (id <$> messages w1)
  ∧ reachable w2
  ∧ id <$> messages w2
    = [lit "1"; lit "1762153205000"; lit "1762153205001";
       lit "1762153205001"]
  ∧ ¬ NoDup (id <$> messages w2).
Proof.
  split; [by eexists _, _, _|]. split; [by vm_compute|].
  split; [refine (bool_decide_eq_false_1 _ _); by vm_compute|].
  split; [by eexists _, _, _|]. split; [by vm_compute|].
  refine (bool_decide_eq_false_1 _ _); by vm_compute.
Qed.

(** ** The initial message *)

Lemma clock_handleSubmit model w : clock w ≤ clock (handleSubmit model w).2.
Proof.
  destruct (decide (trim (input w) = [])) as [Hin|Hin];
    [by rewrite handleSubmit_rejected by auto|].
  destruct (isLoading w) eqn:Hload;
    [by rewrite handleSubmit_rejected by auto|].
  destruct (handleSubmit_shape model w) as (wf & Hwf & Hend); [done|].
  assert (clock w ≤ clock wf) as Hle.
  { destruct Hwf as [-> | [-> | [cs ->]]].
    - apply (reading_mono 0 2 w). lia.
    - apply (reading_mono 0 3 w). lia.
    - unfold streaming.
      destruct (afterChunks_frame (assistantMessageIdOf w)
                  (length (arrays w)) cs [] (opened (submitted w)))
        as (_ & _ & -> & _).
      apply (reading_mono 0 5 w). lia. }
  destruct Hend as [-> | [-> | ->]]; [done..|].
  etrans; [exact Hle|]. apply (reading_mono 0 2 wf). lia.
Qed.

Lemma clock_dispatch w e : clock w ≤ clock (dispatch w e).
Proof. destruct e; [done|apply clock_handleSubmit]. Qed.

(** A dispatch keeps every message at its place with its id, and adds the
    new ones after them. *)
Lemma dispatch_ids_prefix w e :
  (id <$> messages w) `prefix_of` (id <$> messages (dispatch w e)).
Proof.
  destruct e as [value|model]; [done|]. cbn.
  destruct (decide (trim (input w) = [])) as [Hin|Hin];
    [by rewrite handleSubmit_rejected by auto|].
  destruct (isLoading w) eqn:Hload;
    [by rewrite handleSubmit_rejected by auto|].
  destruct (handleSubmit_messages model w) as (old & rest & -> & Hold);
    [done|].
  rewrite fmap_app. eexists.
  f_equal. clear -Hold. induction Hold as [|m m' ?? Hm _ IH]; [done|].
  cbn. f_equal; [|done]. by destruct Hm as [-> _].
Qed.

Lemma dispatch_initialMessage now w e :
  0 < clock w →
  (∃ rest, messages w = initialMessage now :: rest) →
  ∃ rest, messages (dispatch w e) = initialMessage now :: rest.
Proof.
  intros Hclock [rest0 Hms].
  destruct e as [value|model]; [by exists rest0|]. cbn.
  destruct (decide (trim (input w) = [])) as [Hin|Hin];
    [rewrite handleSubmit_rejected by auto; by exists rest0|].
  destruct (isLoading w) eqn:Hload;
    [rewrite handleSubmit_rejected by auto; by exists rest0|].
  destruct (handleSubmit_messages model w) as (old & rest & -> & Hold);
    [done|].
  rewrite Hms in Hold.
  apply Forall2_cons_inv_l in Hold as (m & old' & Hm & _ & ->).
  destruct Hm as (_ & _ & _ & Hm). rewrite Hm; [by eexists|].
  rewrite assistantMessageIdOf_reading.
  change (id (initialMessage now)) with (toString 1).
  intros Heq%toString_inj.
  pose proof (reading_mono 0 4 w ltac:(lia)) as Hle.
  change (reading 0 w) with (clock w) in Hle. lia.
Qed.

Lemma session_initialMessage now es w :
  0 < clock w →
  (∃ rest, messages w = initialMessage now :: rest) →
  ∃ rest, messages (session es w) = initialMessage now :: rest.
Proof.
  revert w. induction es as [|e es IH]; intros w Hclock Hms; [done|].
  cbn. apply IH.
  - pose proof (clock_dispatch w e). lia.
  - by apply dispatch_initialMessage.
Qed.

(** C10, on the code: the component mounts with the greeting under the
    id "1", and the id of a placeholder is a clock reading plus one.  When
    the clock reads 0 while the placeholder is made, the placeholder gets
    the id "1" too, and the patch of the first text chunk, which rewrites
    every message that carries this id, overwrites the greeting: the
    initial message is modified. *)
Lemma greeting_overwritten_at_epoch :
  let chunk := SDK.mkResponse (Some (lit "Hi")) None in
  let w := session [Change (lit "Hello");
                    Submit (responds [SDK.Yield chunk] SDK.Exhausted)]
             (mount 0 []) in
  reachable w
  ∧ ∃ m, head (messages w) = Some m
         ∧ id m = lit "1"
         ∧ content m = lit "Hi"
         ∧ m ≠ initialMessage 0.
Proof.
  split; [by eexists _, _, _|].
  eexists. split; [by vm_compute|]. split; [done|]. split; [done|].
  by vm_compute.
Qed.

(** X19.  The store starts as exactly one message, the assistant message
    with id "1" and the fixed greeting; every dispatch keeps the ids of
    the store in place and puts the new messages after them; and when the
    component mounts after the epoch, the initial message stays first and
    unchanged in every field, whatever the session. *)
Theorem initial_message_stays now ds es :
  messages (mount now ds) = [initialMessage now]
  ∧ id (initialMessage now) = lit "1"
  ∧ role (initialMessage now) = assistant
  ∧ content (initialMessage now)
    = lit "Hello! I'm your Gemini-powered assistant. How can I help you today?"
  ∧ (∀ e, (id <$> messages (session es (mount now ds)))
          `prefix_of`
          (id <$> messages (dispatch (session es (mount now ds)) e)))
  ∧ (0 < now →
     ∃ rest,
       messages (session es (mount now ds)) = initialMessage now :: rest).
Proof.
  repeat split.
  - intros e. apply dispatch_ids_prefix.
  - intros Hnow. apply session_initialMessage; [done|]. by exists [].
Qed.

(** ** The theorems at work on example sessions *)

(** The guard of line 57 lets "Hello" through. *)
Lemma helloWorld_accepted : accepted helloWorld.
Proof. split; [by vm_compute|reflexivity]. Defined.

(** "Hello" answered by the chunks "Hi " and "there!": the final content
    is "Hi there!", there are no sources and nothing is pending. *)
Example hello_scenario :
  let w' := (handleSubmit
               (responds [SDK.Yield (textChunk "Hi ");
                          SDK.Yield (textChunk "there!")] SDK.Exhausted)
               helloWorld).2 in
  (content <$> messages w') = [greeting; lit "Hello"; lit "Hi there!"]
  ∧ (role <$> messages w') = [assistant; user; assistant]
  ∧ (sources <$> messages w') = [None; None; None]
  ∧ isLoading w' = false
  ∧ input w' = [].
Proof. by vm_compute. Qed.

(** One chunk with the text "It's sunny." and the same citation twice:
    one source. *)
Example weather_scenario :
  let w' := (handleSubmit
               (responds
                  [SDK.Yield (citingChunk (Some "It's sunny.")
                                [citation "https://x" "X";
                                 citation "https://x" "X"])]
                  SDK.Exhausted) helloWorld).2 in
  (content <$> messages w') = [greeting; lit "Hello"; lit "It's sunny."]
  ∧ (sourcesOf w' <$> messages w')
    = [None; None; Some [mkSource (lit "https://x") (lit "X")]]
  ∧ isLoading w' = false.
Proof. by vm_compute. Qed.

(** The creation of the context throws: the store ends with the user
    message and the apology, and nothing is pending. *)
Example creation_fault_scenario :
  let w' := (handleSubmit (SDK.mkCapability false true SDK.Rejects)
               helloWorld).2 in
  (content <$> messages w') = [greeting; lit "Hello"; apologyText]
  ∧ (role <$> messages w') = [assistant; user; assistant]
  ∧ isLoading w' = false.
Proof. by vm_compute. Qed.

(** C1 at work: after "Hi " the placeholder reads "Hi ", after
    "there!" it reads "Hi there!". *)
Lemma content_is_ordered_concatenation_witness :
  ∃ m1 m2,
    messages (handleSubmit
                (responds [SDK.Yield (textChunk "Hi ")] SDK.Stalls)
                helloWorld).2 !! 2%nat = Some m1
    ∧ content m1 = lit "Hi "
    ∧ messages (handleSubmit
                  (responds [SDK.Yield (textChunk "Hi ");
                             SDK.Yield (textChunk "there!")] SDK.Exhausted)
                  helloWorld).2 !! 2%nat = Some m2
    ∧ content m2 = lit "Hi there!".
Proof.
  destruct (content_is_ordered_concatenation helloWorld
              [textChunk "Hi "; textChunk "there!"] 1 helloWorld_accepted)
    as (_ & Hk & m2 & Hm2 & _ & Hc2).
  destruct (Hk [SDK.Yield (textChunk "Hi ")] SDK.Stalls eq_refl)
    as (m1 & Hm1 & _ & Hc1).
  exists m1, m2. split; [exact Hm1|]. split; [exact Hc1|].
  split; [exact Hm2|exact Hc2].
Defined.

(** C2 at work: duplicates, a citation without [web] and a second title
    for a known uri leave two sources, in the order they were first seen. *)
Lemma source_merge_first_seen_witness :
  arrays (handleSubmit
            (responds
               [SDK.Yield (citingChunk (Some "It's sunny.")
                             [citation "https://x" "X";
                              citation "https://x" "X"]);
                SDK.Yield (citingChunk None
                             [SDK.mkGroundingChunk None;
                              citation "https://y" "Y";
                              citation "https://x" "Again"])]
               SDK.Exhausted) helloWorld).2 !! 0%nat
  = Some [mkSource (lit "https://x") (lit "X");
          mkSource (lit "https://y") (lit "Y")].
Proof.
  exact (proj1 (source_merge_first_seen helloWorld
                  [SDK.Yield (citingChunk (Some "It's sunny.")
                                [citation "https://x" "X";
                                 citation "https://x" "X"]);
                   SDK.Yield (citingChunk None
                                [SDK.mkGroundingChunk None;
                                 citation "https://y" "Y";
                                 citation "https://x" "Again"])]
                  SDK.Exhausted helloWorld_accepted)).
Defined.

(** C3 at work: the stream faults after "Hi "; the chunk behind the fault
    is never processed, and the pending flag the fault finds set is
    cleared. *)
Lemma fault_appends_apology_witness :
  ∃ w' m,
    handleSubmit
      (responds [SDK.Yield (textChunk "Hi "); SDK.Throw;
                 SDK.Yield (textChunk "there!")] SDK.Exhausted)
      helloWorld = (Normal (), w')
    ∧ messages w'
      = messages (handleSubmit
                    (responds [SDK.Yield (textChunk "Hi ")] SDK.Stalls)
                    helloWorld).2 ++ [m]
    ∧ content m
      = lit "I'm sorry, I encountered an error. Please try again."
    ∧ isLoading (handleSubmit
                   (responds [SDK.Yield (textChunk "Hi ")] SDK.Stalls)
                   helloWorld).2 = true
    ∧ isLoading w' = false.
Proof.
  destruct (fault_appends_apology
              (responds [SDK.Yield (textChunk "Hi "); SDK.Throw;
                         SDK.Yield (textChunk "there!")] SDK.Exhausted)
              (responds [SDK.Yield (textChunk "Hi ")] SDK.Stalls)
              helloWorld helloWorld_accepted eq_refl)
    as (w' & m & Hrun & _ & Hms & _ & Hc & _ & _ & Hset & Hload & _).
  exists w', m. split; [exact Hrun|]. split; [exact Hms|].
  split; [exact Hc|]. split; [exact Hset|exact Hload].
Defined.

(** C4 at work: the send resolves and the stream stalls before its first
    chunk; the store then ends with the user message and the empty
    placeholder. *)
Lemma placeholder_follows_user_message_witness :
  messages (handleSubmit (responds [] SDK.Stalls) helloWorld).2
  = messages helloWorld
    ++ [userMessageIn helloWorld; placeholderIn helloWorld]
  ∧ content (placeholderIn helloWorld) = []
  ∧ sources (placeholderIn helloWorld) = None.
Proof.
  destruct (placeholder_follows_user_message
              (responds [] SDK.Stalls) helloWorld helloWorld_accepted)
    as (_ & _ & Hc & Hs & Hopen & _).
  destruct (Hopen [] SDK.Stalls eq_refl eq_refl eq_refl)
    as (w2 & Hms & Hrun).
  split; [|split; [exact Hc|exact Hs]].
  rewrite Hrun. exact Hms.
Defined.

(** A chunk without text is not patched into the store; the placeholder
    that already shares the array of the exchange shows its citation all
    the same. *)
Example shared_array_shows_later_citations :
  let w' := (handleSubmit
               (responds
                  [SDK.Yield (citingChunk (Some "It's sunny.")
                                [citation "https://x" "X"]);
                   SDK.Yield (citingChunk None [citation "https://y" "Y"])]
                  SDK.Exhausted) helloWorld).2 in
  ∃ m, messages w' !! 2%nat = Some m
       ∧ content m = lit "It's sunny."
       ∧ sources m = Some 0%nat
       ∧ sourcesOf w' m
         = Some [mkSource (lit "https://x") (lit "X");
                 mkSource (lit "https://y") (lit "Y")].
Proof. eexists. split; [by vm_compute|]. by repeat split. Qed.

(** C5 at work: a space, a tab, a no-break space and an ideographic space
    are no input. *)
Lemma rejected_submission_is_noop_witness :
  handleSubmit (responds [SDK.Yield (textChunk "Hi")] SDK.Exhausted)
    (session [Change [32; 9; 160; 12288]%N] (mount 1762153200000 []))
  = (Normal (),
     session [Change [32; 9; 160; 12288]%N] (mount 1762153200000 [])).
Proof.
  refine (proj1 (rejected_submission_is_noop _ _ _)).
  right. left. by vm_compute.
Defined.

(** C6 at work. *)
Lemma user_message_carries_raw_input_witness :
  ∃ m, messages (handleSubmit (responds [] SDK.Exhausted) helloWorld).2
         !! 1%nat = Some m
       ∧ content m = lit "Hello".
Proof.
  destruct (user_message_carries_raw_input
              (responds [] SDK.Exhausted) helloWorld helloWorld_accepted)
    as (m & Hm & _ & Hc & _).
  exists m. split; [exact Hm|exact Hc].
Defined.

(** C8 at work: a late delta for an id the store does not hold. *)
Lemma updateById_unknown_id_is_noop_witness :
  updateById (lit "1762153205252") (lit "late") None (messages helloWorld)
  = messages helloWorld.
Proof.
  refine (proj1 (updateById_unknown_id_is_noop _ _ _ helloWorld _)).
  refine (bool_decide_eq_false_1 _ _). by vm_compute.
Defined.

(** X19 at work. *)
Lemma initial_message_stays_witness :
  ∃ rest,
    messages (session
                [Change (lit "Hello");
                 Submit (responds [SDK.Yield (textChunk "Hi")] SDK.Exhausted)]
                (mount 1762153200000 []))
    = initialMessage 1762153200000 :: rest.
Proof.
  assert (0 < 1762153200000) as Hnow by lia.
  destruct (initial_message_stays 1762153200000 []
              [Change (lit "Hello");
               Submit (responds [SDK.Yield (textChunk "Hi")] SDK.Exhausted)])
    as (_ & _ & _ & _ & _ & Hhead).
  exact (Hhead Hnow).
Defined.

(** * Further properties of the component *)

(** ** The course of an exchange *)

Lemma beforeThrow_None items :
  beforeThrow items = None → items = SDK.Yield <$> processed items.
Proof.
  induction items as [|[c|] items IH]; cbn; [done| |done].
  destruct (beforeThrow items); [done|]. intros _. by rewrite <- IH.
Qed.

Lemma beforeThrow_processed items cs :
  beforeThrow items = Some cs → processed items = cs.
Proof.
  intros (post & ->)%beforeThrow_Some. apply processed_throw.
Qed.

(** The handler, in closed form. *)
Lemma handleSubmit_course model w :
  accepted w → handleSubmit model w = outcome (course model) w.
Proof.
  intros Hacc. unfold course.
  destruct (SDK.clientThrows model) eqn:H1;
    [by apply handleSubmit_client_fault|].
  destruct (SDK.createThrows model) eqn:H2;
    [by apply handleSubmit_create_fault|].
  destruct (SDK.send model) as [| |items tl] eqn:H3.
  - by apply handleSubmit_send_fault.
  - by apply handleSubmit_send_pending.
  - destruct (beforeThrow items) as [cs|] eqn:Hcs.
    + apply beforeThrow_Some in Hcs as [post ->].
      by apply (handleSubmit_iteration_fault _ _ Hacc cs post tl).
    + rewrite (beforeThrow_None _ Hcs) in H3. destruct tl.
      * by apply handleSubmit_exhausted.
      * by apply handleSubmit_stalls.
Qed.

Lemma not_accepted w :
  ¬ accepted w → trim (input w) = [] ∨ isLoading w = true.
Proof.
  intros Hn. destruct (decide (trim (input w) = [])) as [?|Hin]; [by left|].
  destruct (isLoading w) eqn:Hl; [by right|]. by destruct Hn.
Qed.

Lemma accepted_or_rejected model w :
  (accepted w ∧ handleSubmit model w = outcome (course model) w)
  ∨ (¬ accepted w ∧ handleSubmit model w = (Normal (), w)).
Proof.
  destruct (decide (trim (input w) = [])) as [?|Hin];
    [right; split; [by intros [? _]|by apply handleSubmit_rejected; left]|].
  destruct (isLoading w) eqn:Hl;
    [right; split; [intros [_ ?]; congruence
                   |by apply handleSubmit_rejected; right]|].
  left. split; [done|]. by apply handleSubmit_course.
Qed.

Lemma submitDisabled_false w : submitDisabled w = false ↔ accepted w.
Proof.
  unfold submitDisabled, accepted. rewrite orb_false_iff, negb_false_iff.
  by rewrite truthy_true.
Qed.

(** ** The fields the exchange leaves alone *)

Lemma streaming_frame w cs :
  input (streaming w cs).2 = [] ∧ isLoading (streaming w cs).2 = true
  ∧ clock (streaming w cs).2 = reading 5 w.
Proof.
  unfold streaming.
  destruct (afterChunks_frame (assistantMessageIdOf w) (length (arrays w))
              cs [] (opened (submitted w))) as (-> & -> & -> & _).
  done.
Qed.

Lemma outcome_input c w : input (outcome c w).2 = [].
Proof.
  destruct c; cbn; try done; by destruct (streaming_frame w chunks) as [-> _].
Qed.

Lemma outcome_isLoading c w :
  isLoading (outcome c w).2
  = match (outcome c w).1 with Suspended => true | _ => false end.
Proof.
  destruct c; cbn; try done.
  by destruct (streaming_frame w chunks) as (_ & -> & _).
Qed.

(** What the exchange makes of the messages: the former ones, patched at
    the id of the placeholder at most, then the new ones. *)
Lemma outcome_messages c w :
  ∃ old new,
    messages (outcome c w).2 = old ++ userMessageIn w :: new
    ∧ Forall2 (patchedAt (assistantMessageIdOf w)) (messages w) old
    ∧ length new
      = ((match c with
          | StreamHangs _ | StreamEnds _ | StreamFault _ => 1
          | _ => 0
          end)
         + (match c with
            | ClientFault | OpenFault | StreamFault _ => 1
            | _ => 0
            end))%nat
    ∧ (role <$> last new)
      = match c with SendHangs => None | _ => Some assistant end
    ∧ Forall (λ m, role m = assistant) new.
Proof.
  assert (∀ cs, ∃ old p,
    messages (streaming w cs).2 = old ++ [userMessageIn w; p]
    ∧ Forall2 (patchedAt (assistantMessageIdOf w)) (messages w) old
    ∧ role p = assistant) as Hstream.
  { intros cs. destruct (streaming_messages w cs) as (old & p & ? & ? & Hp).
    exists old, p. split; [done|]. split; [done|]. by destruct Hp as (_&->&_). }
  destruct c as [| | |cs|cs|cs]; cbn [outcome snd withIsLoading messages].
  - exists (messages w), [apology (reading 1 (submitted w))
                                  (reading 2 (submitted w))].
    rewrite messages_caught, messages_submitted, <- app_assoc.
    repeat split; by repeat constructor.
  - exists (messages w), [apology (reading 1 (tick (submitted w)))
                                  (reading 2 (tick (submitted w)))].
    rewrite messages_caught.
    change (messages (tick (submitted w)))
      with (messages w ++ [userMessageIn w]).
    rewrite <- app_assoc. repeat split; by repeat constructor.
  - by exists (messages w), [].
  - destruct (Hstream cs) as (old & p & -> & ? & Hp). exists old, [p].
    cbn. rewrite Hp. repeat split; by repeat constructor.
  - destruct (Hstream cs) as (old & p & -> & ? & Hp). exists old, [p].
    cbn. rewrite Hp. repeat split; by repeat constructor.
  - destruct (Hstream cs) as (old & p & Hms & ? & Hp).
    exists old, [p; apology (reading 1 (streaming w cs).2)
                            (reading 2 (streaming w cs).2)].
    rewrite messages_caught, Hms, <- app_assoc.
    repeat split; by repeat constructor.
Qed.

Lemma outcome_length c w :
  length (messages (outcome c w).2)
  = (length (messages w) + 1
     + (match c with
        | StreamHangs _ | StreamEnds _ | StreamFault _ => 1
        | _ => 0
        end)
     + (match c with
        | ClientFault | OpenFault | StreamFault _ => 1
        | _ => 0
        end))%nat.
Proof.
  destruct (outcome_messages c w) as (old & new & -> & Hold & Hnew & _ & _).
  rewrite length_app, <- (Forall2_length _ _ _ Hold). cbn. lia.
Qed.

(** ** The submit button and the guard *)

(** X1.  The submit button is disabled (line 241) exactly when submitting
    would do nothing: with the button disabled [handleSubmit] returns and
    leaves the state as it is, and with the button enabled it appends at
    least one message. *)
Theorem submit_button_tells_the_guard model w :
  (submitDisabled w = true ↔ handleSubmit model w = (Normal (), w))
  ∧ (submitDisabled w = false ↔
       (length (messages w) < length (messages (handleSubmit model w).2))%nat).
Proof.
  destruct (accepted_or_rejected model w) as [[Hacc ->] | [Hrej ->]].
  - pose proof (proj2 (submitDisabled_false w) Hacc) as Hd.
    pose proof (outcome_length (course model) w) as Hlen.
    rewrite Hd. split; split; try done.
    + intros Heq. rewrite Heq in Hlen. cbn in Hlen. lia.
    + intros _. lia.
  - assert (submitDisabled w = true) as ->.
    { destruct (submitDisabled w) eqn:Hd; [done|].
      by apply submitDisabled_false in Hd. }
    split; split; try done. cbn. lia.
Qed.

(** X2.  An accepted submission clears the input field (line 67), so the
    button is disabled after any submission, and a second submission with
    nothing typed in between does nothing, whatever the first one did. *)
Theorem second_submit_is_noop model1 model2 w :
  submitDisabled (handleSubmit model1 w).2 = true
  ∧ handleSubmit model2 (handleSubmit model1 w).2
    = (Normal (), (handleSubmit model1 w).2).
Proof.
  assert (trim (input (handleSubmit model1 w).2) = []
          ∨ isLoading (handleSubmit model1 w).2 = true) as Hrej.
  { destruct (accepted_or_rejected model1 w) as [[Hacc ->] | [Hrej ->]].
    - left. by rewrite outcome_input.
    - by apply not_accepted. }
  split; [|by apply handleSubmit_rejected].
  unfold submitDisabled. destruct Hrej as [-> | ->]; [done|].
  by rewrite orb_true_r.
Qed.

(** ** Completion and the pending flag *)

Lemma course_hangs model :
  hangs model = true
  ↔ (course model = SendHangs ∨ ∃ cs, course model = StreamHangs cs).
Proof.
  unfold hangs, course.
  destruct (SDK.clientThrows model), (SDK.createThrows model); cbn;
    try (split; [done|by intros [?|[? ?]]]).
  destruct (SDK.send model) as [| |items [|]]; cbn;
    try (split; [done|by intros [?|[? ?]]]).
  - split; [by left|done].
  - destruct (beforeThrow items); split; try done;
      by intros [?|[? ?]].
  - destruct (beforeThrow items); split; try done;
      try by intros [?|[? ?]].
    intros _. right. by eexists.
Qed.

(** X3.  [handleSubmit] never lets a fault out: it returns or it hangs.
    An accepted submission returns with the pending flag cleared, or
    hangs with the flag set, and it hangs exactly when the send never
    settles or the stream stalls before any fault. *)
Theorem handleSubmit_returns_or_hangs model w :
  (handleSubmit model w).1 ≠ Thrown
  ∧ (accepted w →
     ((handleSubmit model w).1 = Normal ()
      ∧ isLoading (handleSubmit model w).2 = false
      ∧ hangs model = false)
     ∨ ((handleSubmit model w).1 = Suspended
        ∧ isLoading (handleSubmit model w).2 = true
        ∧ hangs model = true)).
Proof.
  destruct (accepted_or_rejected model w) as [[Hacc ->] | [Hrej ->]].
  - split.
    + by destruct (course model).
    + intros _. rewrite outcome_isLoading.
      pose proof (course_hangs model) as Hh.
      destruct (hangs model).
      * right. destruct (proj1 Hh eq_refl) as [-> | [cs ->]]; done.
      * left. destruct (course model) eqn:Hc; try done.
        -- destruct Hh as [_ Hh]. by discriminate Hh; left.
        -- destruct Hh as [_ Hh]. by discriminate Hh; right; eexists.
  - split; [done|]. by intros ?.
Qed.

(** ** The "Thinking..." indicator *)

Lemma session_snoc es e w :
  session (es ++ [e]) w = dispatch (session es w) e.
Proof. unfold session. by rewrite foldl_app. Qed.

Lemma dispatch_length w e :
  (length (messages w) ≤ length (messages (dispatch w e)))%nat.
Proof.
  pose proof (dispatch_ids_prefix w e) as H%prefix_length.
  by rewrite !length_fmap in H.
Qed.

Lemma session_length es w :
  (length (messages w) ≤ length (messages (session es w)))%nat.
Proof.
  revert w. induction es as [|e es IH]; intros w; [done|]. cbn.
  etrans; [apply (dispatch_length w e)|apply IH].
Qed.

(** X4.  The store of the component is never empty, so the test of the
    "Thinking..." indicator (line 216), which reads the role of the last
    message, always has a value: rendering never fails on it. *)
Theorem thinking_indicator_is_defined now ds es :
  messages (session es (mount now ds)) ≠ []
  ∧ is_Some (thinkingShown (session es (mount now ds))).
Proof.
  assert (messages (session es (mount now ds)) ≠ []) as Hne.
  { pose proof (session_length es (mount now ds)) as Hlen.
    intros Heq. rewrite Heq in Hlen. cbn in Hlen. lia. }
  split; [done|]. unfold thinkingShown.
  destruct (isLoading _); [|by eexists].
  destruct (last _) eqn:Hlast; [by eexists|].
  by apply last_None in Hlast.
Qed.

(** X5.  After an accepted submission the "Thinking..." indicator is shown
    exactly while the send is pending: it goes away as soon as the
    placeholder is appended, although the exchange is still pending while
    the stream is read, and it is not shown after a fault or the end of
    the stream. *)
Theorem thinking_indicator_while_sending model w :
  accepted w →
  thinkingShown (handleSubmit model w).2
  = Some (negb (SDK.clientThrows model) && negb (SDK.createThrows model)
          && match SDK.send model with
             | SDK.NeverSettles => true
             | _ => false
             end).
Proof.
  intros Hacc. rewrite (handleSubmit_course _ _ Hacc).
  assert (negb (SDK.clientThrows model) && negb (SDK.createThrows model)
          && match SDK.send model with
             | SDK.NeverSettles => true
             | _ => false
             end
          = match course model with SendHangs => true | _ => false end)
    as ->.
  { unfold course.
    destruct (SDK.clientThrows model), (SDK.createThrows model); cbn;
      try done.
    destruct (SDK.send model) as [| |items [|]]; cbn; try done;
      by destruct (beforeThrow items). }
  unfold thinkingShown. rewrite outcome_isLoading.
  destruct (outcome_messages (course model) w)
    as (old & new & -> & _ & _ & Hlast & _).
  rewrite last_app_cons, last_cons.
  destruct (last new) as [p|]; cbn in Hlast;
    destruct (course model); simplify_eq/=; try done.
  by rewrite Hlast.
Qed.

(** ** How many messages an exchange adds *)

Lemma course_opens model :
  opens model
  = match course model with
    | StreamHangs _ | StreamEnds _ | StreamFault _ => true
    | _ => false
    end.
Proof.
  unfold opens, course.
  destruct (SDK.clientThrows model), (SDK.createThrows model); cbn;
    try done.
  destruct (SDK.send model) as [| |items [|]]; cbn; try done;
    by destruct (beforeThrow items).
Qed.

Lemma course_faults model :
  faults model
  = match course model with
    | ClientFault | OpenFault | StreamFault _ => true
    | _ => false
    end.
Proof.
  unfold faults, frozen, course.
  destruct (SDK.clientThrows model), (SDK.createThrows model); cbn;
    try done.
  destruct (SDK.send model) as [| |items [|]]; cbn; try done;
    by destruct (beforeThrow items).
Qed.

(** X6.  An accepted submission adds the user message, one placeholder if
    the stream is opened, and one apology if the exchange faults: between
    one and three messages, and no message is ever removed. *)
Theorem exchange_adds_one_to_three_messages model w :
  accepted w →
  length (messages (handleSubmit model w).2)
  = (length (messages w) + 1
     + (if opens model then 1 else 0)
     + (if faults model then 1 else 0))%nat.
Proof.
  intros Hacc. rewrite (handleSubmit_course _ _ Hacc), outcome_length.
  rewrite course_opens, course_faults. by destruct (course model).
Qed.

(** ** What a dispatch leaves alone *)

Lemma dispatch_messages w e :
  ∃ old new,
    messages (dispatch w e) = old ++ new
    ∧ Forall2 (patchedAt (toString (reading 4 w + 1))) (messages w) old.
Proof.
  destruct e as [value|model]; cbn.
  { exists (messages w), []. by rewrite app_nil_r. }
  destruct (accepted_or_rejected model w) as [[Hacc ->] | [Hrej ->]].
  - destruct (outcome_messages (course model) w)
      as (old & new & -> & Hold & _).
    by exists old, (userMessageIn w :: new).
  - exists (messages w), []. by rewrite app_nil_r.
Qed.

(** X7.  A dispatch keeps every message of the store at its place with its
    id, its role and its time stamp, and leaves a message whose id is not
    the id given to the new placeholder (the fourth clock reading plus
    one) as it is in every field. *)
Theorem dispatch_keeps_other_messages w e n m :
  messages w !! n = Some m →
  ∃ m', messages (dispatch w e) !! n = Some m'
        ∧ id m' = id m ∧ role m' = role m ∧ timestamp m' = timestamp m
        ∧ (id m ≠ toString (reading 4 w + 1) → m' = m).
Proof.
  intros Hm. destruct (dispatch_messages w e) as (old & new & -> & Hold).
  destruct (Forall2_lookup_l _ _ _ _ _ Hold Hm)
    as (m' & Hm' & ? & ? & ? & ?).
  exists m'. split; [|done].
  rewrite lookup_app_l; [done|]. by eapply lookup_lt_Some.
Qed.

(** ** The arrays of sources *)

Lemma firstSeen_wellFormed l : wellFormedSources (firstSeen (validPairs l)).
Proof.
  split; [apply firstSeen_NoDup|]. apply Forall_forall. intros s Hs.
  eapply elem_of_sublist in Hs; [|apply firstSeen_sublist].
  apply list_elem_of_omap in Hs as (c & _ & Hc).
  by apply validPair_truthy in Hc.
Qed.

Lemma arrays_streaming w cs :
  arrays (streaming w cs).2
  = arrays w ++ [firstSeen (validPairs (citations cs))].
Proof.
  unfold streaming. rewrite afterChunks_arrays, arrays_opened.
  rewrite alter_app_r_alt, Nat.sub_diag by done. cbn.
  by rewrite foldl_collect_nil.
Qed.

(** The arrays an exchange leaves: those it found and, if the stream was
    opened, the array of its own sources. *)
Lemma outcome_arrays c w :
  arrays (outcome c w).2
  = arrays w
    ++ match c with
       | StreamHangs cs | StreamEnds cs | StreamFault cs =>
           [firstSeen (validPairs (citations cs))]
       | _ => []
       end.
Proof.
  destruct c as [| | |cs|cs|cs]; cbn [outcome snd];
    try (by rewrite app_nil_r);
    change (arrays (withIsLoading false ?w)) with (arrays w);
    try change (arrays (caught ?w)) with (arrays w);
    apply arrays_streaming.
Qed.

Lemma dispatch_arrays w e :
  arrays (dispatch w e) = arrays w
  ∨ ∃ l, arrays (dispatch w e) = arrays w ++ [firstSeen (validPairs l)].
Proof.
  destruct e as [value|model]; cbn; [by left|].
  destruct (accepted_or_rejected model w) as [[Hacc ->] | [Hrej ->]];
    [|by left].
  rewrite outcome_arrays.
  destruct (course model); rewrite ?app_nil_r; eauto.
Qed.

(** X8.  A dispatch never touches the arrays of sources that exist: it
    can only add the array of its own exchange after them.  So what a
    message lists as sources, once its array exists, is the same after
    the dispatch as long as the message keeps its reference. *)
Theorem finished_sources_are_frozen w e :
  arrays w `prefix_of` arrays (dispatch w e)
  ∧ ∀ m r, sources m = Some r → (r < length (arrays w))%nat →
           sourcesOf (dispatch w e) m = sourcesOf w m
           ∧ sourcesShown (dispatch w e) m = sourcesShown w m.
Proof.
  assert (arrays w `prefix_of` arrays (dispatch w e)) as Hpre.
  { destruct (dispatch_arrays w e) as [-> | [l ->]]; [done|].
    by apply prefix_app_r. }
  split; [done|]. intros m r Hm Hr.
  assert (sourcesOf (dispatch w e) m = sourcesOf w m) as Heq.
  { unfold sourcesOf. rewrite Hm. do 2 f_equal. symmetry.
    by apply prefix_lookup_lt. }
  split; [done|]. unfold sourcesShown. by rewrite Heq.
Qed.

(** ** A pending session *)

(** X15.  Once the pending flag is set, no event of the user interface
    clears it or changes the store: typing only changes the input field
    and every submission is refused.  There is no cancellation; only the
    pending exchange itself can go on. *)
Theorem pending_session_is_stuck w es :
  isLoading w = true →
  isLoading (session es w) = true
  ∧ messages (session es w) = messages w
  ∧ arrays (session es w) = arrays w
  ∧ clock (session es w) = clock w.
Proof.
  revert w. induction es as [|e es IH]; intros w Hload; [done|]. cbn.
  assert (isLoading (dispatch w e) = true
          ∧ messages (dispatch w e) = messages w
          ∧ arrays (dispatch w e) = arrays w
          ∧ clock (dispatch w e) = clock w) as (H1 & <- & <- & <-).
  { destruct e as [value|model]; cbn; [done|].
    by rewrite handleSubmit_rejected by auto. }
  by apply IH.
Qed.

(** ** The sources the messages refer to *)

Lemma forEach_prefix g arr : arr `prefix_of` forEach g arr.
Proof. unfold forEach. rewrite foldl_collect. by eexists. Qed.

Lemma sourcesSet_mono w w' :
  sourcesSet w →
  (∀ m, m ∈ messages w' → m ∈ messages w ∨ sources m = None) →
  arrays w `prefix_of` arrays w' →
  sourcesSet w'.
Proof.
  intros Hw Hms Harr m r Hm Hr.
  destruct (Hms m Hm) as [Hin|Hnone]; [|congruence].
  destruct (Hw m r Hin Hr) as (l & Hl & Hne).
  exists l. split; [|done]. by eapply prefix_lookup_Some.
Qed.

Lemma sourcesSet_loopBody i r c acc w :
  sourcesSet w → sourcesSet (loopBody i r c acc w).2.
Proof.
  intros Hw. rewrite loopBody_eq. cbn zeta.
  set (g := λ arr : list Source,
              match groundingChunksOf c with
              | Some gcs => forEach gcs arr
              | None => arr
              end).
  assert (∀ l, l ≠ [] → g l ≠ []) as Hg.
  { intros l Hl. unfold g. destruct (groundingChunksOf c) as [gcs|]; [|done].
    destruct (forEach_prefix gcs l) as [k ->]. by destruct l. }
  assert (sourcesSet (withArrays (alter g r) w)) as Hw1.
  { intros m r' Hm Hr. destruct (Hw m r' Hm Hr) as (l & Hl & Hne).
    cbn. rewrite list_lookup_alter. case_decide as Heq.
    - subst r'. rewrite Hl. cbn. eauto.
    - eauto. }
  destruct (truthy_opt (SDK.text c)); [|done].
  intros m' r' Hm' Hr'. cbn in Hm'. unfold updateById in Hm'.
  apply list_elem_of_fmap in Hm' as (m & -> & Hm).
  cbn in Hm. case_decide; [|by apply (Hw1 m r')].
  cbn in Hr'. case_bool_decide as Hlen; [|done]. injection Hr' as <-.
  cbn. destruct (alter g r (arrays w) !! r) as [l|] eqn:Hl;
    [|cbn in Hlen; lia].
  exists l. split; [done|]. intros ->. cbn in Hlen. lia.
Qed.

Lemma sourcesSet_afterChunks i r cs acc w :
  sourcesSet w → sourcesSet (afterChunks i r cs (acc, w)).2.
Proof.
  revert acc w. induction cs as [|c cs IH]; intros acc w Hw; [done|].
  rewrite afterChunks_cons.
  pose proof (sourcesSet_loopBody i r c acc w Hw) as Hstep.
  rewrite loopBody_eq in Hstep |- *. cbn zeta in Hstep |- *.
  destruct (truthy_opt (SDK.text c)); by apply IH.
Qed.

Lemma sourcesSet_snoc w w' m :
  sourcesSet w → messages w' = messages w ++ [m] → sources m = None →
  arrays w `prefix_of` arrays w' → sourcesSet w'.
Proof.
  intros Hw Hms Hm Harr. apply (sourcesSet_mono w); [done| |done].
  intros m'. rewrite Hms, elem_of_app, list_elem_of_singleton.
  intros [?| ->]; auto.
Qed.

Lemma sourcesSet_outcome c w : sourcesSet w → sourcesSet (outcome c w).2.
Proof.
  intros Hw.
  assert (sourcesSet (submitted w)) as Hsub.
  { by apply (sourcesSet_snoc w _ (userMessageIn w)). }
  assert (∀ cs, sourcesSet (streaming w cs).2) as Hstream.
  { intros cs. apply sourcesSet_afterChunks.
    apply (sourcesSet_snoc (submitted w) _ (placeholderIn w)); try done.
    by apply prefix_app_r. }
  assert (∀ wf, sourcesSet wf → sourcesSet (withIsLoading false (caught wf)))
    as Hcaught.
  { intros wf Hwf.
    by apply (sourcesSet_snoc wf _ (apology (reading 1 wf) (reading 2 wf))). }
  assert (sourcesSet (tick (submitted w))) as Htick
    by (by apply (sourcesSet_mono (submitted w)); auto).
  destruct c as [| | |cs|cs|cs]; cbn [outcome snd]; auto.
  by apply (sourcesSet_mono (streaming w cs).2); auto.
Qed.

Lemma sourcesSet_dispatch w e : sourcesSet w → sourcesSet (dispatch w e).
Proof.
  intros Hw. destruct e as [value|model]; cbn; [done|].
  destruct (accepted_or_rejected model w) as [[Hacc ->] | [Hrej ->]];
    [by apply sourcesSet_outcome|done].
Qed.

Lemma sourcesSet_session es w : sourcesSet w → sourcesSet (session es w).
Proof.
  revert w. induction es as [|e es IH]; intros w Hw; [done|].
  cbn. by apply IH, sourcesSet_dispatch.
Qed.

Lemma wellFormed_session es w :
  Forall wellFormedSources (arrays w) →
  Forall wellFormedSources (arrays (session es w)).
Proof.
  revert w. induction es as [|e es IH]; intros w Hw; [done|].
  cbn. apply IH.
  destruct (dispatch_arrays w e) as [-> | [l ->]]; [done|].
  apply Forall_app. split; [done|].
  apply Forall_singleton, firstSeen_wellFormed.
Qed.

(** X9.  In every state of the component, every array of sources is well
    formed: no uri occurs twice in it, and each of its entries has a
    non-empty uri and a non-empty title.  The links a bubble lists
    (lines 194-205) are never duplicated nor blank. *)
Theorem sources_arrays_are_well_formed now ds es :
  Forall wellFormedSources (arrays (session es (mount now ds))).
Proof. apply wellFormed_session. constructor. Qed.

(** X10.  In every state of the component, a message whose [sources]
    field is set refers to an array that exists and is not empty (line
    118 stores the array only when it has an entry, and arrays never
    shrink): the bubble of such a message always lists its sources, and
    the length test of line 190 never hides a set field. *)
Theorem set_sources_are_shown now ds es :
  ∀ m, m ∈ messages (session es (mount now ds)) →
       sourcesShown (session es (mount now ds)) m
       = sourcesOf (session es (mount now ds)) m
       ∧ ∀ r, sources m = Some r →
              (r < length (arrays (session es (mount now ds))))%nat.
Proof.
  intros m Hm.
  assert (sourcesSet (session es (mount now ds))) as Hset.
  { apply sourcesSet_session. intros m' r Hm'.
    apply list_elem_of_singleton in Hm' as ->. done. }
  split.
  - unfold sourcesShown, sourcesOf.
    destruct (sources m) as [r|] eqn:Hr; [|done].
    destruct (Hset m r Hm Hr) as (l & -> & Hne). cbn.
    rewrite bool_decide_true; [done|]. destruct l; [done|cbn; lia].
  - intros r Hr. destruct (Hset m r Hm Hr) as (l & Hl & _).
    by eapply lookup_lt_Some.
Qed.

(** ** Growth during an exchange *)

Lemma afterChunks_app i r cs cs' st :
  afterChunks i r (cs ++ cs') st = afterChunks i r cs' (afterChunks i r cs st).
Proof. unfold afterChunks. by rewrite foldl_app. Qed.

Lemma streaming_app w cs cs' :
  streaming w (cs ++ cs')
  = afterChunks (assistantMessageIdOf w) (length (arrays w)) cs'
      ((streaming w cs).1, (streaming w cs).2).
Proof.
  unfold streaming. rewrite afterChunks_app.
  by destruct (afterChunks _ _ cs _).
Qed.

Lemma citations_app cs cs' :
  citations (cs ++ cs') = citations cs ++ citations cs'.
Proof. unfold citations. apply bind_app. Qed.

Lemma firstSeen_prefix l l' :
  firstSeen (validPairs l) `prefix_of` firstSeen (validPairs (l ++ l')).
Proof.
  rewrite <- !foldl_collect_nil, foldl_app.
  apply (forEach_prefix l' (foldl collect [] l)).
Qed.

(** Once a message with the id of the exchange refers to the array of the
    exchange, and the array has an entry, it keeps referring to it. *)
Lemma afterChunks_sticky i r cs acc w n m :
  messages w !! n = Some m → id m = i → sources m = Some r →
  (0 < length (default [] (arrays w !! r)))%nat →
  ∃ m', messages (afterChunks i r cs (acc, w)).2 !! n = Some m'
        ∧ sources m' = Some r.
Proof.
  revert acc w m. induction cs as [|c cs IH]; intros acc w m Hm Hid Hs Hlen.
  - by exists m.
  - rewrite afterChunks_cons, loopBody_eq. cbn zeta.
    set (g := λ arr : list Source,
                match groundingChunksOf c with
                | Some gcs => forEach gcs arr
                | None => arr
                end).
    assert (0 < length (default [] (alter g r (arrays w) !! r)))%nat
      as Hlen'.
    { rewrite list_lookup_alter_eq.
      destruct (arrays w !! r) as [l|]; [|cbn in Hlen; lia]. cbn in *.
      unfold g. destruct (groundingChunksOf c) as [gcs|]; [|done].
      destruct (forEach_prefix gcs l) as [k ->].
      rewrite length_app. lia. }
    destruct (truthy_opt (SDK.text c)).
    + eapply (IH _ _ (mkMessage (id m) (role m) (acc ++ delta c)
                        (timestamp m) (Some r))); try done.
      cbn. rewrite (updateById_lookup _ _ _ _ _ _ Hm).
      rewrite decide_True by done. by rewrite bool_decide_true.
    + by eapply (IH _ (withArrays (alter g r) w) m).
Qed.

(** X11.  During an exchange the placeholder only grows: after more
    chunks its content extends the content it had, and the sources it
    listed are still listed, in the same order, possibly followed by new
    ones; sources, once shown, are never withdrawn. *)
Theorem placeholder_only_grows w cs cs' :
  ∃ m1 m2,
    messages (streaming w cs).2 !! S (length (messages w)) = Some m1
    ∧ messages (streaming w (cs ++ cs')).2 !! S (length (messages w))
      = Some m2
    ∧ content m1 `prefix_of` content m2
    ∧ ∀ l1, sourcesShown (streaming w cs).2 m1 = Some l1 →
            ∃ l2, sourcesShown (streaming w (cs ++ cs')).2 m2 = Some l2
                  ∧ l1 `prefix_of` l2.
Proof.
  destruct (placeholder_lookup w cs) as (m1 & Hm1 & Hid1 & _ & _ & Hc1 & Hs1).
  destruct (placeholder_lookup w (cs ++ cs'))
    as (m2 & Hm2 & _ & _ & _ & Hc2 & _).
  exists m1, m2. split; [done|]. split; [done|]. split.
  { rewrite Hc1, Hc2. unfold streaming. rewrite !afterChunks_content. cbn.
    rewrite fmap_app, concat_app. by eexists. }
  intros l1 Hshown. unfold sourcesShown, sourcesOf in Hshown.
  destruct Hs1 as [Hs1|Hs1]; rewrite Hs1 in Hshown; [done|].
  pose proof (streaming_sources w cs) as Harr1.
  rewrite Harr1 in Hshown. cbn in Hshown.
  case_bool_decide as Hlen; [|done]. injection Hshown as <-.
  destruct (afterChunks_sticky (assistantMessageIdOf w) (length (arrays w))
              cs' (streaming w cs).1 (streaming w cs).2 _ m1 Hm1 Hid1 Hs1)
    as (m2' & Hm2' & Hs2).
  { by rewrite Harr1. }
  rewrite <- streaming_app, Hm2 in Hm2'. injection Hm2' as <-.
  pose proof (firstSeen_prefix (citations cs) (citations cs')) as Hpre.
  rewrite <- citations_app in Hpre.
  exists (firstSeen (validPairs (citations (cs ++ cs')))). split; [|done].
  unfold sourcesShown, sourcesOf.
  rewrite Hs2, (streaming_sources w (cs ++ cs')). cbn.
  rewrite bool_decide_true; [done|].
  apply prefix_length in Hpre. lia.
Qed.

(** ** Time stamps *)

Lemma timed_snoc w w' m :
  timed w → messages w' = messages w ++ [m] →
  clock w ≤ timestamp m → timestamp m ≤ clock w' →
  timed w'.
Proof.
  intros [Hchron Hle] Hms Hlo Hhi. rewrite Forall_forall in Hle.
  split.
  - rewrite Hms. intros i j a b Hij Ha Hb.
    apply lookup_app_Some in Ha as [Ha | [Hi Ha]];
      apply lookup_app_Some in Hb as [Hb | [Hj Hb]].
    + by eapply Hchron.
    + apply list_lookup_singleton_Some in Hb as [_ <-].
      etrans; [|exact Hlo]. apply Hle. by eapply list_elem_of_lookup_2.
    + apply lookup_lt_Some in Hb. lia.
    + apply list_lookup_singleton_Some in Ha as [_ <-].
      by apply list_lookup_singleton_Some in Hb as [_ <-].
  - rewrite Hms. apply Forall_app. split.
    + apply Forall_forall. intros x Hx. specialize (Hle x Hx). lia.
    + by apply Forall_singleton.
Qed.

Lemma timed_patched i w w' :
  timed w → Forall2 (patchedAt i) (messages w) (messages w') →
  clock w ≤ clock w' → timed w'.
Proof.
  intros [Hchron Hle] Hp Hclock. rewrite Forall_forall in Hle. split.
  - intros n j a b Hnj Ha Hb.
    destruct (Forall2_lookup_r _ _ _ _ _ Hp Ha) as (a0 & Ha0 & _ & _ & -> & _).
    destruct (Forall2_lookup_r _ _ _ _ _ Hp Hb) as (b0 & Hb0 & _ & _ & -> & _).
    by eapply Hchron.
  - apply Forall_forall. intros x Hx.
    apply list_elem_of_lookup in Hx as [n Hn].
    destruct (Forall2_lookup_r _ _ _ _ _ Hp Hn) as (x0 & Hx0 & _ & _ & -> & _).
    apply list_elem_of_lookup_2 in Hx0. specialize (Hle x0 Hx0). lia.
Qed.

Lemma timed_same w w' :
  timed w → messages w' = messages w → clock w ≤ clock w' → timed w'.
Proof.
  intros Hw Hms Hclock. apply (timed_patched [] w); [done| |done].
  rewrite Hms. reflexivity.
Qed.

Lemma timed_outcome c w : timed w → timed (outcome c w).2.
Proof.
  intros Hw.
  assert (timed (submitted w)) as Hsub.
  { apply (timed_snoc w _ (userMessageIn w)); [done..| |done].
    apply (reading_mono 0 2 w). lia. }
  assert (timed (tick (submitted w))) as Htick.
  { apply (timed_same (submitted w)); [done..|]. apply clock_tick. }
  assert (∀ cs, timed (streaming w cs).2) as Hstream.
  { intros cs. unfold streaming.
    apply (timed_patched (assistantMessageIdOf w) (opened (submitted w))).
    - apply (timed_snoc (submitted w) _ (placeholderIn w)); [done..| |done].
      apply (reading_mono 2 5 w). lia.
    - apply afterChunks_messages.
    - by destruct (afterChunks_frame (assistantMessageIdOf w)
                     (length (arrays w)) cs [] (opened (submitted w)))
        as (_ & _ & -> & _). }
  assert (∀ wf, timed wf → timed (withIsLoading false (caught wf)))
    as Hcaught.
  { intros wf Hwf.
    apply (timed_snoc wf _ (apology (reading 1 wf) (reading 2 wf)));
      [done..| |done].
    apply (reading_mono 0 2 wf). lia. }
  destruct c as [| | |cs|cs|cs]; cbn [outcome snd]; auto.
  by apply (timed_same (streaming w cs).2).
Qed.

Lemma timed_session es w : timed w → timed (session es w).
Proof.
  revert w. induction es as [|e es IH]; intros w Hw; [done|].
  cbn. apply IH. destruct e as [value|model]; cbn; [done|].
  destruct (accepted_or_rejected model w) as [[Hacc ->] | [Hrej ->]];
    [by apply timed_outcome|done].
Qed.

(** X12.  With a clock that never goes back, the store is always in the
    order of the time stamps: a message is never stamped earlier than a
    message before it, and no time stamp is ahead of the clock.  The
    patches of the loop keep the time stamps. *)
Theorem messages_are_chronological now ds es :
  chronological (messages (session es (mount now ds)))
  ∧ Forall (λ m, timestamp m ≤ clock (session es (mount now ds)))
      (messages (session es (mount now ds))).
Proof.
  apply timed_session. split.
  - intros i j a b _ Ha Hb.
    apply list_lookup_singleton_Some in Ha as [_ <-].
    by apply list_lookup_singleton_Some in Hb as [_ <-].
  - by apply Forall_singleton.
Qed.

(** ** Which exchanges end with sources *)

Lemma upToLastText_split cs :
  ∃ rest, cs = upToLastText cs ++ rest
          ∧ Forall (λ c, carriesText c = false) rest.
Proof.
  induction cs as [|c cs (rest & Hcs & Hrest)].
  - by exists [].
  - cbn. destruct (upToLastText cs) as [|k kept] eqn:Hk.
    + destruct (carriesText c) eqn:Hc.
      * exists rest. cbn in *. split; [by rewrite <- Hcs|done].
      * exists (c :: rest). cbn in *. split; [by rewrite <- Hcs|].
        by constructor.
    + exists rest. split; [|done]. cbn. by rewrite Hcs at 1.
Qed.

Lemma upToLastText_last cs :
  upToLastText cs = []
  ∨ ∃ pre c, upToLastText cs = pre ++ [c] ∧ carriesText c = true.
Proof.
  induction cs as [|c cs IH]; [by left|]. cbn.
  destruct (upToLastText cs) as [|k kept] eqn:Hk.
  - destruct (carriesText c) eqn:Hc; [|by left].
    right. by exists [], c.
  - right. destruct IH as [?|(pre & c' & -> & Hc')]; [done|].
    by exists (c :: pre), c'.
Qed.

(** Chunks without text leave the messages and the content alone. *)
Lemma afterChunks_no_text i r cs acc w :
  Forall (λ c, carriesText c = false) cs →
  messages (afterChunks i r cs (acc, w)).2 = messages w
  ∧ (afterChunks i r cs (acc, w)).1 = acc.
Proof.
  intros Hcs. revert acc w.
  induction Hcs as [|c cs Hc _ IH]; intros acc w; [done|].
  rewrite afterChunks_cons, loopBody_eq. cbn zeta.
  unfold carriesText in Hc. rewrite Hc. apply (IH _ (withArrays _ w)).
Qed.

Lemma firstSeen_nil l : firstSeen l = [] ↔ l = [].
Proof. by destruct l. Qed.

(** The [sources] field of the placeholder after the chunks [cs]. *)
Lemma streaming_placeholder_sources w cs :
  ∃ m, messages (streaming w cs).2 !! S (length (messages w)) = Some m
       ∧ sources m
         = if bool_decide (validPairs (citations (upToLastText cs)) = [])
           then None else Some (length (arrays w)).
Proof.
  destruct (upToLastText_split cs) as (rest & Hcs & Hrest).
  assert (messages (streaming w cs).2
          = messages (streaming w (upToLastText cs)).2) as ->.
  { rewrite Hcs at 1. rewrite streaming_app.
    by apply afterChunks_no_text. }
  destruct (upToLastText_last cs) as [-> | (pre & c & -> & Hc)].
  - exists (placeholderIn w). split; [|done].
    change (messages (streaming w []).2)
      with (messages (opened (submitted w))).
    rewrite messages_opened.
    by rewrite lookup_app_r, Nat.sub_succ_l, Nat.sub_diag by lia.
  - destruct (placeholder_lookup w pre) as (m & Hm & Hid & _).
    pose proof (streaming_sources w (pre ++ [c])) as Hsrcs.
    revert Hsrcs. unfold streaming.
    rewrite afterChunks_snoc. cbn zeta. rewrite loopBody_eq. cbn zeta.
    unfold carriesText in Hc. rewrite Hc. cbn. intros Hsrcs.
    rewrite Hsrcs. cbn.
    fold (streaming w pre).
    rewrite (updateById_lookup _ _ _ _ _ _ Hm), decide_True by done.
    eexists. split; [done|]. cbn.
    destruct (validPairs (citations (pre ++ [c]))) as [|p l]; [done|].
    by rewrite bool_decide_true by (cbn; lia).
Qed.

(** ** The last message and the indicator *)

Lemma userLastOnlyPending_dispatch w e :
  userLastOnlyPending w → userLastOnlyPending (dispatch w e).
Proof.
  intros Hw. destruct e as [value|model]; cbn; [done|].
  destruct (accepted_or_rejected model w) as [[Hacc ->] | [Hrej ->]];
    [|done].
  intros m Hlast Hrole. rewrite outcome_isLoading.
  destruct (outcome_messages (course model) w)
    as (old & new & Hms & _ & _ & Hnew & _).
  rewrite Hms, last_app_cons, last_cons in Hlast.
  destruct (last new) as [p|]; cbn in Hnew.
  - injection Hlast as ->.
    destruct (course model); simplify_eq/=; congruence.
  - by destruct (course model).
Qed.

Lemma userLastOnlyPending_session es w :
  userLastOnlyPending w → userLastOnlyPending (session es w).
Proof.
  revert w. induction es as [|e es IH]; intros w Hw; [done|].
  cbn. by apply IH, userLastOnlyPending_dispatch.
Qed.

(** X13.  In every state of the component the "Thinking..." indicator is
    shown exactly when the last message of the store is a message of the
    user: a store that ends with a user message belongs to a pending
    session, so the flag in the test of line 216 follows from the role. *)
Theorem thinking_indicator_follows_last_message now ds es :
  thinkingShown (session es (mount now ds)) = Some true
  ↔ ∃ m, last (messages (session es (mount now ds))) = Some m
         ∧ role m = user.
Proof.
  assert (userLastOnlyPending (session es (mount now ds))) as Hinv.
  { apply userLastOnlyPending_session. intros m [= <-]. done. }
  unfold thinkingShown. split.
  - destruct (isLoading _); [|done].
    destruct (last _) as [m|]; [|done].
    intros [= Hrole%bool_decide_eq_true]. by exists m.
  - intros (m & Hlast & Hrole). rewrite (Hinv m Hlast Hrole), Hlast.
    by rewrite bool_decide_true.
Qed.

(** ** The messages of the user *)

Lemma outcome_clock c w : reading 2 w ≤ clock (outcome c w).2.
Proof.
  assert (∀ wf, clock wf ≤ clock (withIsLoading false (caught wf))) as Hc.
  { intros wf. apply (reading_mono 0 2 wf). lia. }
  assert (∀ cs, reading 2 w ≤ clock (streaming w cs).2) as Hs.
  { intros cs. destruct (streaming_frame w cs) as (_ & _ & ->).
    apply reading_mono. lia. }
  destruct c as [| | |cs|cs|cs]; cbn [outcome snd].
  - apply (Hc (submitted w)).
  - etrans; [|apply Hc]. apply (reading_mono 2 3 w). lia.
  - apply (reading_mono 2 3 w). lia.
  - apply Hs.
  - apply Hs.
  - etrans; [apply (Hs cs)|apply Hc].
Qed.

Lemma userMessagesDated_dispatch w e :
  userMessagesDated w → userMessagesDated (dispatch w e).
Proof.
  intros Hw. destruct e as [value|model]; cbn; [done|].
  destruct (accepted_or_rejected model w) as [[Hacc ->] | [Hrej ->]];
    [|done].
  pose proof (outcome_clock (course model) w) as Hclock.
  pose proof (reading_mono 0 1 w ltac:(lia)) as H01.
  pose proof (reading_mono 1 2 w ltac:(lia)) as H12.
  pose proof (reading_mono 1 4 w ltac:(lia)) as H14.
  change (reading 0 w) with (clock w) in H01.
  destruct (outcome_messages (course model) w)
    as (old & new & Hms & Hold & _ & _ & Hnew).
  intros m Hm Hrole. rewrite Hms in Hm.
  apply elem_of_app in Hm as [Hm|Hm].
  - apply list_elem_of_lookup in Hm as [n Hn].
    destruct (Forall2_lookup_r _ _ _ _ _ Hold Hn)
      as (m0 & Hm0 & _ & Hr & _ & Hsame).
    apply list_elem_of_lookup_2 in Hm0.
    destruct (Hw m0 Hm0) as (Hs & t & Hid & Ht); [congruence|].
    rewrite Hsame.
    + split; [done|]. exists t. split; [done|]. lia.
    + rewrite Hid, assistantMessageIdOf_reading. intros ?%toString_inj. lia.
  - apply elem_of_cons in Hm as [->|Hm].
    + split; [done|]. exists (reading 1 w). split; [done|]. lia.
    + rewrite Forall_forall in Hnew. specialize (Hnew m Hm). congruence.
Qed.

Lemma userMessagesDated_session es w :
  userMessagesDated w → userMessagesDated (session es w).
Proof.
  revert w. induction es as [|e es IH]; intros w Hw; [done|].
  cbn. by apply IH, userMessagesDated_dispatch.
Qed.

(** X14.  With a clock that never goes back, a message of the user is
    never rewritten: in every state of the component it has no sources,
    and whatever is dispatched next leaves it as it is in every field,
    at its place.  The id of a later placeholder is always ahead of the
    id of a user message, so the patches of the loop never reach it. *)
Theorem user_messages_are_never_rewritten now ds es e n m :
  messages (session es (mount now ds)) !! n = Some m →
  role m = user →
  sources m = None
  ∧ messages (dispatch (session es (mount now ds)) e) !! n = Some m.
Proof.
  intros Hn Hrole.
  assert (userMessagesDated (session es (mount now ds))) as Hinv.
  { apply userMessagesDated_session. intros m0 Hm0.
    apply list_elem_of_singleton in Hm0 as ->. done. }
  destruct (Hinv m) as (Hs & t & Hid & Ht);
    [by eapply list_elem_of_lookup_2|done|].
  split; [done|].
  destruct (dispatch_messages (session es (mount now ds)) e)
    as (old & new & -> & Hold).
  destruct (Forall2_lookup_l _ _ _ _ _ Hold Hn)
    as (m' & Hm' & _ & _ & _ & Hsame).
  rewrite lookup_app_l by (by eapply lookup_lt_Some).
  rewrite Hm', Hsame; [done|].
  rewrite Hid. intros ?%toString_inj.
  pose proof (reading_mono 0 4 (session es (mount now ds)) ltac:(lia)) as Hle.
  change (reading 0 (session es (mount now ds)))
    with (clock (session es (mount now ds))) in Hle.
  lia.
Qed.

(** ** Which title a source keeps *)

Lemma firstSeen_first l s :
  s ∈ firstSeen l →
  ∃ n, list_find (λ q, uri q = uri s) l = Some (n, s).
Proof.
  induction l as [|p l IH]; [by intros ?%elem_of_nil|].
  cbn [firstSeen]. intros [->|Hs]%elem_of_cons.
  - exists 0%nat. cbn. by rewrite decide_True.
  - apply list_elem_of_filter in Hs as [Hne Hs].
    destruct (IH Hs) as [n Hn]. exists (S n). cbn.
    rewrite decide_False by congruence. by rewrite Hn.
Qed.

(** X16.  The entry the array keeps for a uri is the first valid citation
    of that uri that the processed chunks delivered: a later citation of
    the same uri never replaces its title (lines 106-107 look the uri up
    and push only when it is new). *)
Theorem first_title_wins w items tl srcs s :
  accepted w →
  arrays (handleSubmit (responds items tl) w).2 !! length (arrays w)
  = Some srcs →
  s ∈ srcs →
  ∃ n, list_find (λ q, uri q = uri s)
         (validPairs (citations (processed items))) = Some (n, s).
Proof.
  intros Hacc Hsrcs Hs. apply firstSeen_first.
  pose proof (streaming_sources w (processed items)) as Harr.
  assert (arrays (handleSubmit (responds items tl) w).2
          = arrays (streaming w (processed items)).2) as Heq
    by (by destruct (handleSubmit_responds w items tl Hacc)
          as [-> | [-> | ->]]).
  rewrite Heq, Harr in Hsrcs. by injection Hsrcs as <-.
Qed.

(** ** Streams without text *)

(** X17.  When no chunk that the loop processes carries text (an empty
    stream included), the store is never patched: the exchange leaves its
    placeholder as it was appended, with empty content and no sources,
    whatever citations arrived. *)
Theorem textless_stream_leaves_empty_placeholder w items tl :
  accepted w →
  Forall (λ c, carriesText c = false) (processed items) →
  messages (handleSubmit (responds items tl) w).2
    !! S (length (messages w)) = Some (placeholderIn w)
  ∧ content (placeholderIn w) = []
  ∧ sources (placeholderIn w) = None.
Proof.
  intros Hacc Hno. split; [|done].
  assert (messages (streaming w (processed items)).2
            !! S (length (messages w)) = Some (placeholderIn w)) as Hm.
  { unfold streaming.
    rewrite (proj1 (afterChunks_no_text _ _ _ _ _ Hno)), messages_opened.
    by rewrite lookup_app_r, Nat.sub_succ_l, Nat.sub_diag by lia. }
  destruct (handleSubmit_responds w items tl Hacc) as [-> | [-> | ->]];
    [done..|].
  cbn [withIsLoading messages].
  rewrite messages_caught, lookup_app_l; [done|]. by eapply lookup_lt_Some.
Qed.

(** ** The further theorems at work on example sessions *)

(** X5 at work: while the send is pending, the indicator is shown. *)
Lemma thinking_indicator_while_sending_witness :
  thinkingShown
    (handleSubmit (SDK.mkCapability false false SDK.NeverSettles)
       helloWorld).2
  = Some true.
Proof.
  exact (thinking_indicator_while_sending
           (SDK.mkCapability false false SDK.NeverSettles)
           helloWorld helloWorld_accepted).
Defined.

(** X6 at work: a stream that faults after one chunk adds the user
    message, the placeholder and the apology to the greeting. *)
Lemma exchange_adds_one_to_three_messages_witness :
  length (messages
            (handleSubmit
               (responds [SDK.Yield (textChunk "Hi "); SDK.Throw]
                  SDK.Exhausted) helloWorld).2)
  = 4%nat.
Proof.
  exact (exchange_adds_one_to_three_messages
           (responds [SDK.Yield (textChunk "Hi "); SDK.Throw] SDK.Exhausted)
           helloWorld helloWorld_accepted).
Defined.

(** X7 at work: an exchange leaves the greeting as it is. *)
Lemma dispatch_keeps_other_messages_witness :
  messages
    (dispatch helloWorld
       (Submit (responds [SDK.Yield (textChunk "Hi")] SDK.Exhausted)))
    !! 0%nat
  = Some (initialMessage 1762153200000).
Proof.
  destruct (dispatch_keeps_other_messages helloWorld
              (Submit (responds [SDK.Yield (textChunk "Hi")] SDK.Exhausted))
              0 (initialMessage 1762153200000) eq_refl)
    as (m' & Hm' & _ & _ & _ & Hsame).
  rewrite Hm'. f_equal. apply Hsame. by vm_compute.
Defined.

(** X10 at work: the answer to "Hello" that cites one source lists it. *)
Lemma set_sources_are_shown_witness :
  ∃ m,
    messages
      (session
         [Change (lit "Hello");
          Submit (responds
                    [SDK.Yield (citingChunk (Some "It's sunny.")
                                  [citation "https://x" "X"])]
                    SDK.Exhausted)]
         (mount 1762153200000 [])) !! 2%nat = Some m
    ∧ sourcesShown
        (session
           [Change (lit "Hello");
            Submit (responds
                      [SDK.Yield (citingChunk (Some "It's sunny.")
                                    [citation "https://x" "X"])]
                      SDK.Exhausted)]
           (mount 1762153200000 [])) m
      = Some [mkSource (lit "https://x") (lit "X")].
Proof.
  eexists. split; [by vm_compute|].
  match goal with
  | |- sourcesShown ?w ?m = _ =>
      assert (m ∈ messages w) as Hin
        by (apply (list_elem_of_lookup_2 _ 2); by vm_compute)
  end.
  rewrite (proj1 (set_sources_are_shown _ _ _ _ Hin)). by vm_compute.
Defined.

(** X14 at work: a second exchange leaves the first user message alone. *)
Lemma user_messages_are_never_rewritten_witness :
  ∃ m,
    messages
      (session
         [Change (lit "Hello");
          Submit (responds [SDK.Yield (textChunk "Hi")] SDK.Exhausted);
          Change (lit "More")]
         (mount 1762153200000 [])) !! 1%nat = Some m
    ∧ content m = lit "Hello"
    ∧ messages
        (dispatch
           (session
              [Change (lit "Hello");
               Submit (responds [SDK.Yield (textChunk "Hi")] SDK.Exhausted);
               Change (lit "More")]
              (mount 1762153200000 []))
           (Submit (responds [SDK.Yield (textChunk "Sure")] SDK.Exhausted)))
        !! 1%nat = Some m.
Proof.
  eexists. split; [by vm_compute|]. split; [done|].
  refine (proj2 (user_messages_are_never_rewritten 1762153200000 []
                   [Change (lit "Hello");
                    Submit (responds [SDK.Yield (textChunk "Hi")]
                              SDK.Exhausted);
                    Change (lit "More")]
                   (Submit (responds [SDK.Yield (textChunk "Sure")]
                              SDK.Exhausted))
                   1 _ _ _)); by vm_compute.
Defined.

(** X15 at work: while the send of "Hello" is pending, typing and
    submitting again change nothing in the store. *)
Lemma pending_session_is_stuck_witness :
  messages
    (session
       [Change (lit "Again");
        Submit (responds [SDK.Yield (textChunk "Hi")] SDK.Exhausted)]
       (handleSubmit (SDK.mkCapability false false SDK.NeverSettles)
          helloWorld).2)
  = messages
      (handleSubmit (SDK.mkCapability false false SDK.NeverSettles)
         helloWorld).2.
Proof.
  refine (proj1 (proj2 (pending_session_is_stuck _ _ _))).
  by vm_compute.
Defined.

(** X16 at work: the second title given for "https://x" is dropped. *)
Lemma first_title_wins_witness :
  ∃ n,
    list_find (λ q, uri q = uri (mkSource (lit "https://x") (lit "X")))
      (validPairs
         (citations
            (processed
               [SDK.Yield (citingChunk (Some "It's sunny.")
                             [citation "https://x" "X";
                              citation "https://x" "Again"])])))
    = Some (n, mkSource (lit "https://x") (lit "X")).
Proof.
  refine (first_title_wins helloWorld
            [SDK.Yield (citingChunk (Some "It's sunny.")
                          [citation "https://x" "X";
                           citation "https://x" "Again"])]
            SDK.Exhausted
            [mkSource (lit "https://x") (lit "X")]
            (mkSource (lit "https://x") (lit "X"))
            helloWorld_accepted _ _); [by vm_compute|by left].
Defined.

(** X17 at work: two chunks that carry citations and no text leave an
    empty bubble without sources. *)
Lemma textless_stream_leaves_empty_placeholder_witness :
  messages
    (handleSubmit
       (responds
          [SDK.Yield (citingChunk None [citation "https://x" "X"]);
           SDK.Yield (citingChunk (Some "") [citation "https://y" "Y"])]
          SDK.Exhausted) helloWorld).2 !! 2%nat
  = Some (placeholderIn helloWorld)
  ∧ arrays
      (handleSubmit
         (responds
            [SDK.Yield (citingChunk None [citation "https://x" "X"]);
             SDK.Yield (citingChunk (Some "") [citation "https://y" "Y"])]
            SDK.Exhausted) helloWorld).2 !! 0%nat
    = Some [mkSource (lit "https://x") (lit "X");
            mkSource (lit "https://y") (lit "Y")].
Proof.
  split; [|by vm_compute].
  refine (proj1 (textless_stream_leaves_empty_placeholder helloWorld
                   [SDK.Yield (citingChunk None [citation "https://x" "X"]);
                    SDK.Yield (citingChunk (Some "")
                                 [citation "https://y" "Y"])]
                   SDK.Exhausted helloWorld_accepted _)).
  repeat constructor.
Defined.

(** * The update queue *)

(** ** Patches *)

(** Of two patches of the same id, the later one decides. *)
Lemma updateById_updateById i c s c' s' prev :
  updateById i c s (updateById i c' s' prev) = updateById i c s prev.
Proof.
  unfold updateById. rewrite <- list_fmap_compose.
  apply list_fmap_ext. intros _ m _. cbn.
  destruct (decide (id m = i)) as [Hm|Hm]; cbn;
    [by rewrite decide_True|by rewrite decide_False].
Qed.

Lemma runQueued_eq i r acc q w :
  runQueued i r acc q w
  = (Normal (),
     match q with
     | O => w
     | S _ => withMessages
                (updateById i acc
                   (patchSources r (default [] (arrays w !! r)))) w
     end).
Proof.
  revert w. induction q as [|q IH]; intros w; [done|].
  cbn. exec. rewrite IH. destruct q as [|q]; [done|].
  unfold withMessages. cbn. by rewrite updateById_updateById.
Qed.

Lemma loopBodyQueued_eq r chunk acc q w :
  loopBodyQueued r chunk acc q w
  = (Normal (acc ++ delta chunk, if carriesText chunk then S q else q),
     withArrays
       (alter (λ arr, foldl collect arr
                        (default [] (groundingChunksOf chunk))) r) w).
Proof.
  unfold loopBodyQueued, carriesText. exec.
  assert (delta chunk = default [] (SDK.text chunk)) as Hd by done.
  destruct (groundingChunksOf chunk) as [g|]; exec.
  - destruct (truthy_opt (SDK.text chunk)) eqn:Ht; [done|].
    by rewrite (delta_falsy chunk Ht), app_nil_r.
  - assert (withArrays (alter (λ arr : list Source, arr) r) w = w) as ->.
    { rewrite <- (withArrays_id w) at 2. unfold withArrays. f_equal.
      by apply list_alter_id. }
    destruct (truthy_opt (SDK.text chunk)) eqn:Ht; [done|].
    by rewrite (delta_falsy chunk Ht), app_nil_r.
Qed.
Lemma upToLastText_cons c cs :
  upToLastText (c :: cs)
  = if decide (upToLastText cs = [])
    then (if carriesText c then [c] else [])
    else c :: upToLastText cs.
Proof. cbn. by destruct (upToLastText cs). Qed.

Lemma upToLastText_nil cs :
  upToLastText cs = [] → concat (delta <$> cs) = [].
Proof.
  induction cs as [|c cs IH]; [done|].
  rewrite upToLastText_cons. case_decide as Hcs; [|done].
  destruct (carriesText c) eqn:Hc; [done|]. intros _.
  cbn. by rewrite (delta_falsy c Hc), IH.
Qed.

Lemma length_upToLastText cs : (length (upToLastText cs) ≤ length cs)%nat.
Proof.
  destruct (upToLastText_split cs) as (rest & Hcs & _).
  rewrite Hcs at 2. rewrite length_app. lia.
Qed.

(** What React's rendering makes of the world. *)
Lemma runQueued_spec i r acc q w arr :
  arrays w !! r = Some arr →
  ∃ wF,
    runQueued i r acc q w = (Normal (), wF)
    ∧ (input wF = input w ∧ isLoading wF = isLoading w
       ∧ clock wF = clock w ∧ delays wF = delays w)
    ∧ arrays wF = arrays w
    ∧ messages wF
      = if decide (q = 0%nat) then messages w
        else updateById i acc (patchSources r arr) (messages w).
Proof.
  intros Harr. rewrite runQueued_eq, Harr.
  eexists. split; [done|]. by destruct q.
Qed.

Lemma forAwaitQueued_spec i r items tl renders acc q w arr :
  arrays w !! r = Some arr →
  ∃ wF k,
    forAwaitQueued i r items tl renders acc q w
    = (match beforeThrow items, tl with
       | Some _, _ => Thrown
       | None, SDK.Exhausted =>
           Normal (acc ++ concat (delta <$> processed items))
       | None, SDK.Stalls => Suspended
       end, wF)
    ∧ (input wF = input w ∧ isLoading wF = isLoading w
       ∧ clock wF = clock w ∧ delays wF = delays w)
    ∧ arrays wF
      = alter (λ a, foldl collect a (citations (processed items))) r
          (arrays w)
    ∧ (length (upToLastText (processed items)) ≤ k
       ≤ length (processed items))%nat
    ∧ messages wF
      = if decide (q = 0%nat ∧ upToLastText (processed items) = [])
        then messages w
        else updateById i (acc ++ concat (delta <$> processed items))
               (patchSources r
                  (foldl collect arr
                     (citations (take k (processed items)))))
               (messages w).
Proof.
  revert renders acc q w arr.
  induction items as [|[c|] items IH]; intros renders acc q w arr Harr.
  - destruct (runQueued_spec i r acc q w arr Harr)
      as (wF & Hrun & Hframe & Harrs & Hms).
    cbn [forAwaitQueued]. unfold mbind, Exec_bind. rewrite Hrun.
    exists wF, 0%nat. split; [by destruct tl; cbn; rewrite ?app_nil_r|].
    split; [done|]. split; [rewrite Harrs; symmetry; by apply list_alter_id|].
    split; [done|]. rewrite Hms. cbn. rewrite app_nil_r.
    destruct (decide (q = 0%nat)) as [->|Hq].
    + by rewrite decide_True.
    + rewrite decide_False; [done|]. by intros [? _].
  - cbn [forAwaitQueued processed beforeThrow].
    unfold mbind at 1, Exec_bind at 1. rewrite loopBodyQueued_eq.
    cbn [fst snd].
    set (g := λ a : list Source,
                foldl collect a (default [] (groundingChunksOf c))).
    set (q' := if carriesText c then S q else q).
    set (cs := processed items).
    assert (∀ q2 w2,
              (input w2 = input w ∧ isLoading w2 = isLoading w
               ∧ clock w2 = clock w ∧ delays w2 = delays w) →
              arrays w2 = alter g r (arrays w) →
              (messages w2 = messages w ∧ q2 = q')
              ∨ (q' ≠ 0%nat ∧ q2 = 0%nat
                 ∧ messages w2
                   = updateById i (acc ++ delta c) (patchSources r (g arr))
                       (messages w)) →
            ∃ wF k,
              forAwaitQueued i r items tl (tail renders) (acc ++ delta c)
                q2 w2
              = (match cons c <$> beforeThrow items with
                 | Some _ => Thrown
                 | None =>
                     match tl with
                     | SDK.Exhausted =>
                         Normal (acc ++ concat (delta <$> c :: cs))
                     | SDK.Stalls => Suspended
                     end
                 end, wF)
              ∧ (input wF = input w ∧ isLoading wF = isLoading w
                 ∧ clock wF = clock w ∧ delays wF = delays w)
              ∧ arrays wF
                = alter (λ a, foldl collect a (citations (c :: cs))) r
                    (arrays w)
              ∧ (length (upToLastText (c :: cs)) ≤ k ≤ length (c :: cs))%nat
              ∧ messages wF
                = if decide (q = 0%nat ∧ upToLastText (c :: cs) = [])
                  then messages w
                  else updateById i (acc ++ concat (delta <$> c :: cs))
                         (patchSources r
                            (foldl collect arr
                               (citations (take k (c :: cs)))))
                         (messages w)) as Hstep.
    { intros q2 w2 (Hi & Hl & Hc & Hd) Harrs2 Hms2.
      assert (arrays w2 !! r = Some (g arr)) as Harr2.
      { by rewrite Harrs2, list_lookup_alter_eq, Harr. }
      destruct (IH (tail renders) (acc ++ delta c) q2 w2 (g arr) Harr2)
        as (wF & k' & Hrun & (Hi' & Hl' & Hc' & Hd') & Harrs & Hk & Hms).
      fold cs in Hrun, Harrs, Hk, Hms.
      assert (∀ l, citations (c :: l)
                   = default [] (groundingChunksOf c) ++ citations l)
        as Hcit by done.
      assert (acc ++ concat (delta <$> c :: cs)
              = (acc ++ delta c) ++ concat (delta <$> cs)) as Hacc
        by (cbn; by rewrite app_assoc).
      assert (q' = 0%nat ↔ q = 0%nat ∧ carriesText c = false) as Hq'.
      { subst q'. destruct (carriesText c); split;
          [done|by intros [_ ?]|by intros ->|by intros [-> _]]. }
      assert (arrays wF
              = alter (λ a, foldl collect a (citations (c :: cs))) r
                  (arrays w)) as HarrsF.
      { rewrite Harrs, Harrs2, list_alter_alter_eq.
        apply list_alter_ext; [|done]. intros a _. subst g. cbn beta.
        by rewrite Hcit, foldl_app. }
      assert (forAwaitQueued i r items tl (tail renders) (acc ++ delta c)
                q2 w2
              = (match cons c <$> beforeThrow items with
                 | Some _ => Thrown
                 | None =>
                     match tl with
                     | SDK.Exhausted =>
                         Normal (acc ++ concat (delta <$> c :: cs))
                     | SDK.Stalls => Suspended
                     end
                 end, wF)) as HrunF.
      { rewrite Hrun, Hacc. by destruct (beforeThrow items). }
      destruct (decide (q2 = 0%nat ∧ upToLastText cs = []))
        as [[Hq2 Hup]|Hno].
      + exists wF, 1%nat. split; [done|].
        split; [by rewrite Hi', Hl', Hc', Hd'|]. split; [done|].
        split.
        { rewrite upToLastText_cons, decide_True by done.
          destruct (carriesText c); cbn; lia. }
        rewrite Hms, Hacc, (upToLastText_nil cs Hup), app_nil_r.
        cbn [take].
        destruct Hms2 as [[-> Hq2'] | (Hq0 & _ & ->)].
        * rewrite decide_True; [done|].
          assert (q' = 0%nat) as Hz by lia. apply Hq' in Hz as [-> Hc0].
          split; [done|].
          by rewrite upToLastText_cons, decide_True, Hc0.
        * rewrite decide_False.
          { do 2 f_equal. subst g. cbn beta.
            by rewrite Hcit, take_0, app_nil_r. }
          intros [Hq Hu]. apply Hq0, Hq'. split; [done|].
          rewrite upToLastText_cons, decide_True in Hu by done.
          by destruct (carriesText c).
      + exists wF, (S k'). split; [done|].
        split; [by rewrite Hi', Hl', Hc', Hd'|]. split; [done|].
        split.
        { rewrite upToLastText_cons. cbn [length].
          case_decide as Hup; [|cbn; lia].
          destruct (carriesText c); cbn; lia. }
        rewrite Hms, Hacc. cbn [take].
        rewrite Hcit, foldl_app. fold (g arr).
        rewrite decide_False.
        { destruct Hms2 as [[-> _] | (_ & _ & ->)]; [done|].
          by rewrite updateById_updateById. }
        intros [Hq Hu]. apply Hno.
        rewrite upToLastText_cons in Hu. case_decide as Hup; [|done].
        split; [|done].
        destruct Hms2 as [[_ ->] | (_ & -> & _)]; [|done].
        apply Hq'. split; [done|]. by destruct (carriesText c). }
    destruct (default true (head renders)).
    + match goal with
      | |- context [runQueued i r ?a ?q0 ≫= _] =>
          destruct (runQueued_spec i r a q0
                      (withArrays (alter g r) w) (g arr))
            as (w2 & Hrun & Hframe & Harrs2 & Hms2)
      end.
      { cbn. by rewrite list_lookup_alter_eq, Harr. }
      unfold mbind at 1, Exec_bind at 1. rewrite Hrun.
      apply Hstep; [done|done|].
      rewrite Hms2. case_decide as Hz; [by left|by right].
    + apply Hstep; [done|done|by left].
  - destruct (runQueued_spec i r acc q w arr Harr)
      as (wF & Hrun & Hframe & Harrs & Hms).
    cbn [forAwaitQueued]. unfold mbind, Exec_bind. rewrite Hrun.
    exists wF, 0%nat. split; [done|].
    split; [done|]. split; [rewrite Harrs; symmetry; by apply list_alter_id|].
    split; [done|]. rewrite Hms. cbn. rewrite app_nil_r.
    destruct (decide (q = 0%nat)) as [->|Hq].
    + by rewrite decide_True.
    + rewrite decide_False; [done|]. by intros [? _].
Qed.

(** ** The handler with queued patches *)

Lemma handleSubmitQueued_accepted model renders w :
  accepted w →
  handleSubmitQueued model renders w
  = tryCatchFinally (tryBlockQueued model renders) catchBlock finallyBlock
      (submitted w).
Proof.
  intros [Hin Hload]. unfold handleSubmitQueued. exec.
  apply truthy_true in Hin. by rewrite Hin, Hload.
Qed.

Lemma tryBlockQueued_resolves items tl renders w :
  tryBlockQueued (responds items tl) renders w
  = (forAwaitQueued (toString (clock (tick (tick w)) + 1))
       (length (arrays w)) items tl renders [] 0 ≫= λ _, mret ())
      (opened w).
Proof. unfold tryBlockQueued, responds. by exec. Qed.

(** When React renders after every chunk, the patches run as soon as they
    are queued: the loop is [forAwait]. *)
Lemma forAwaitQueued_rendered i r items tl renders acc w :
  Forall (λ b, b = true) renders →
  forAwaitQueued i r items tl renders acc 0 w = forAwait i r items tl acc w.
Proof.
  revert renders acc w.
  induction items as [|[c|] items IH]; intros renders acc w Hr.
  - done.
  - assert (default true (head renders) = true) as Hhd
      by (by destruct Hr as [|? ? ->]).
    assert (Forall (λ b, b = true) (tail renders)) as Htl
      by (by destruct Hr).
    cbn [forAwaitQueued forAwait].
    unfold mbind at 1 3, Exec_bind at 1 3.
    rewrite loopBodyQueued_eq, loopBody_eq, Hhd. cbn [fst snd].
    unfold mbind at 1, Exec_bind at 1. rewrite runQueued_eq.
    unfold carriesText.
    assert (withArrays
              (alter (λ arr, foldl collect arr
                               (default [] (groundingChunksOf c))) r) w
            = withArrays
                (alter (λ arr, match groundingChunksOf c with
                               | Some g => forEach g arr
                               | None => arr
                               end) r) w) as ->.
    { unfold withArrays. f_equal. apply list_alter_ext; [|done].
      intros arr _. by destruct (groundingChunksOf c). }
    cbn zeta.
    destruct (truthy_opt (SDK.text c)) eqn:Ht.
    + by rewrite IH.
    + by rewrite (delta_falsy c Ht), app_nil_r, IH.
  - done.
Qed.

Lemma tryBlockQueued_rendered model renders w :
  Forall (λ b, b = true) renders →
  tryBlockQueued model renders w = tryBlock model w.
Proof.
  intros Hr. unfold tryBlockQueued, tryBlock, new_GoogleGenAI, chats_create,
    sendMessageStream.
  destruct (SDK.clientThrows model); [done|].
  destruct (SDK.createThrows model); [done|].
  destruct (SDK.send model) as [| |items tl]; [done|done|].
  exec. by rewrite forAwaitQueued_rendered.
Qed.

(** [handleSubmit] is the handler with queued patches when React renders
    after every chunk. *)
Lemma handleSubmitQueued_rendered model renders w :
  Forall (λ b, b = true) renders →
  handleSubmitQueued model renders w = handleSubmit model w.
Proof.
  intros Hr. unfold handleSubmitQueued, handleSubmit. exec.
  destruct (negb (truthy (trim (input w))) || isLoading w); [done|].
  unfold tryCatchFinally. by rewrite tryBlockQueued_rendered.
Qed.

(** Where an exchange whose send resolves leaves the component, whenever
    React renders: in the world the loop made, pending, ended, or
    caught. *)
Lemma handleSubmitQueued_responds w items tl renders :
  accepted w →
  handleSubmitQueued (responds items tl) renders w
  = match beforeThrow items, tl with
    | Some _, _ =>
        (Normal (),
         withIsLoading false (caught (streamingQueued w items tl renders)))
    | None, SDK.Exhausted =>
        (Normal (), withIsLoading false (streamingQueued w items tl renders))
    | None, SDK.Stalls => (Suspended, streamingQueued w items tl renders)
    end.
Proof.
  intros Hacc. rewrite handleSubmitQueued_accepted by done.
  unfold tryCatchFinally. rewrite tryBlockQueued_resolves.
  fold (assistantMessageIdOf w).
  change (length (arrays (submitted w))) with (length (arrays w)).
  unfold streamingQueued.
  destruct (forAwaitQueued_spec (assistantMessageIdOf w) (length (arrays w))
              items tl renders [] 0 (opened (submitted w)) [])
    as (wF & k & Hrun & _).
  { rewrite arrays_opened. by apply list_lookup_middle. }
  unfold mbind, Exec_bind. rewrite Hrun.
  destruct (beforeThrow items); [by exec|]. destruct tl; by exec.
Qed.

(** In the world the loop leaves, the store is the one the loop started
    from if no chunk carried text; otherwise it is this store with one
    patch, which carries the whole content and the sources that had
    arrived when React ran it, at the last chunk that carries text at the
    earliest. *)
Lemma streamingQueued_spec w items tl renders :
  let i := assistantMessageIdOf w in
  let r := length (arrays w) in
  let cs := processed items in
  let wF := streamingQueued w items tl renders in
  ∃ k,
    (length (upToLastText cs) ≤ k ≤ length cs)%nat
    ∧ messages wF
      = (if decide (upToLastText cs = []) then openedStore w
         else updateById i (concat (delta <$> cs))
                (patchSources r (sourcesAfter k cs)) (openedStore w))
    ∧ arrays wF !! r = Some (firstSeen (validPairs (citations cs)))
    ∧ isLoading wF = true.
Proof.
  intros i r cs wF. subst wF. unfold streamingQueued. fold i. fold r.
  destruct (forAwaitQueued_spec i r items tl renders [] 0
              (opened (submitted w)) [])
    as (wF & k & Hrun & (_ & Hl & _) & Harrs & Hk & Hms).
  { rewrite arrays_opened. by apply list_lookup_middle. }
  fold cs in Hrun, Harrs, Hk, Hms. rewrite Hrun. cbn [snd].
  exists k. split; [done|]. split.
  { rewrite Hms, messages_opened. fold (openedStore w).
    unfold sourcesAfter. rewrite foldl_collect_nil.
    case_decide as Hup.
    - rewrite decide_True; [done|]. by destruct Hup.
    - rewrite decide_False; [done|]. tauto. }
  split; [|done].
  rewrite Harrs, arrays_opened.
  rewrite list_lookup_alter_eq, list_lookup_middle by done. cbn.
  by rewrite foldl_collect_nil.
Qed.

Lemma length_openedStore w :
  length (openedStore w) = S (S (length (messages w))).
Proof. unfold openedStore. rewrite length_app. cbn. lia. Qed.

Lemma length_streamingQueued w items tl renders :
  length (messages (streamingQueued w items tl renders))
  = length (openedStore w).
Proof.
  destruct (streamingQueued_spec w items tl renders) as (k & _ & -> & _).
  case_decide; [done|]. apply length_updateById.
Qed.

(** The store and the arrays of the loop in the world the handler
    leaves: a caught fault adds the apology and nothing else. *)
Lemma handleSubmitQueued_store w items tl renders :
  accepted w →
  let w' := (handleSubmitQueued (responds items tl) renders w).2 in
  take (length (openedStore w)) (messages w')
  = messages (streamingQueued w items tl renders)
  ∧ arrays w' = arrays (streamingQueued w items tl renders).
Proof.
  intros Hacc w'. subst w'. rewrite handleSubmitQueued_responds by done.
  rewrite <- (length_streamingQueued w items tl renders).
  destruct (beforeThrow items); [|destruct tl]; cbn [snd];
    cbn [withIsLoading messages arrays]; rewrite ?messages_caught;
    rewrite ?take_app_length, ?firstn_all; done.
Qed.

(** When React does not render while the chunks arrive, every patch runs
    once the loop is left, on the whole content and on all the sources. *)
Lemma forAwaitQueued_unrendered i r items tl acc q w arr :
  arrays w !! r = Some arr →
  messages
    (forAwaitQueued i r items tl
       (replicate (length (processed items)) false) acc q w).2
  = if decide (q = 0%nat ∧ upToLastText (processed items) = [])
    then messages w
    else updateById i (acc ++ concat (delta <$> processed items))
           (patchSources r
              (foldl collect arr (citations (processed items))))
           (messages w).
Proof.
  revert acc q w arr.
  induction items as [|[c|] items IH]; intros acc q w arr Harr.
  - destruct (runQueued_spec i r acc q w arr Harr)
      as (wF & Hrun & _ & _ & Hms).
    cbn [forAwaitQueued]. unfold mbind, Exec_bind. rewrite Hrun.
    assert (messages wF
            = if decide (q = 0%nat ∧ upToLastText (processed []) = [])
              then messages w
              else updateById i (acc ++ concat (delta <$> processed []))
                     (patchSources r
                        (foldl collect arr (citations (processed []))))
                     (messages w)) as <-; [|by destruct tl].
    rewrite Hms. cbn. rewrite app_nil_r.
    destruct (decide (q = 0%nat)) as [->|Hq].
    + by rewrite decide_True.
    + rewrite decide_False; [done|]. by intros [? _].
  - cbn [forAwaitQueued processed length replicate head tail default].
    unfold mbind at 1, Exec_bind at 1. rewrite loopBodyQueued_eq.
    cbn [fst snd]. change (Datatypes.id false) with false. cbv iota.
    rewrite (IH _ _ _ (foldl collect arr
                                       (default [] (groundingChunksOf c)))).
    2: { cbn. by rewrite list_lookup_alter_eq, Harr. }
    assert (citations (c :: processed items)
            = default [] (groundingChunksOf c) ++ citations (processed items))
      as -> by done.
    rewrite foldl_app, upToLastText_cons. cbn [fmap list_fmap concat].
    rewrite <- app_assoc. cbn [messages withArrays].
    destruct (decide (upToLastText (processed items) = [])) as [Hup|Hup].
    + destruct (carriesText c) eqn:Hc.
      * rewrite decide_False by (by intros [? _]).
        rewrite decide_False; [done|]. by intros [_ ?].
      * destruct (decide (q = 0%nat)) as [->|Hq].
        -- by rewrite !decide_True.
        -- rewrite !decide_False; [done|by intros [? _]|by intros [? _]].
    + rewrite !decide_False; [done|by intros [_ ?]|by intros [_ ?]].
  - destruct (runQueued_spec i r acc q w arr Harr)
      as (wF & Hrun & _ & _ & Hms).
    cbn [forAwaitQueued]. unfold mbind, Exec_bind. rewrite Hrun.
    cbn. rewrite Hms, app_nil_r.
    destruct (decide (q = 0%nat)) as [->|Hq].
    + by rewrite decide_True.
    + rewrite decide_False; [done|]. by intros [? _].
Qed.

Lemma streamingQueued_unrendered w items tl :
  let cs := processed items in
  messages (streamingQueued w items tl (replicate (length cs) false))
  = if decide (upToLastText cs = []) then openedStore w
    else updateById (assistantMessageIdOf w) (concat (delta <$> cs))
           (patchSources (length (arrays w))
              (firstSeen (validPairs (citations cs))))
           (openedStore w).
Proof.
  intros cs. subst cs. unfold streamingQueued.
  rewrite (forAwaitQueued_unrendered _ _ _ _ _ _ _ []).
  2: { rewrite arrays_opened. by apply list_lookup_middle. }
  rewrite messages_opened, foldl_collect_nil. fold (openedStore w).
  case_decide as Hup.
  - rewrite decide_True; [done|]. by destruct Hup.
  - rewrite decide_False; [done|]. tauto.
Qed.

(** ** The sources a patch passes *)

Lemma patchSources_nil r : patchSources r [] = None.
Proof. done. Qed.

Lemma patchSources_Some r arr : arr ≠ [] → patchSources r arr = Some r.
Proof. by destruct arr. Qed.

Lemma patchSources_cases r arr :
  patchSources r arr = None ∨ patchSources r arr = Some r.
Proof. destruct arr; [by left|by right]. Qed.

Lemma validPairs_app l l' :
  validPairs (l ++ l') = validPairs l ++ validPairs l'.
Proof. apply omap_app. Qed.

(** No source has arrived while no valid citation has. *)
Lemma sourcesAfter_none k cs :
  validPairs (citations cs) = [] → sourcesAfter k cs = [].
Proof.
  intros Hall. unfold sourcesAfter. apply firstSeen_nil.
  rewrite <- (take_drop k cs), citations_app, validPairs_app in Hall.
  by apply app_eq_nil in Hall as [? _].
Qed.

(** A valid citation that has arrived by the last chunk that carries text
    has arrived when a patch runs. *)
Lemma sourcesAfter_early k cs :
  (length (upToLastText cs) ≤ k)%nat →
  validPairs (citations (upToLastText cs)) ≠ [] →
  sourcesAfter k cs ≠ [].
Proof.
  intros Hk Hearly Hnil. apply Hearly.
  destruct (upToLastText_split cs) as (rest & Hcs & _).
  unfold sourcesAfter in Hnil. apply (proj1 (firstSeen_nil _)) in Hnil.
  rewrite Hcs, take_app_ge, citations_app, validPairs_app in Hnil by done.
  by apply app_eq_nil in Hnil as [? _].
Qed.

Lemma sourcesAfter_all cs :
  sourcesAfter (length cs) cs = firstSeen (validPairs (citations cs)).
Proof. unfold sourcesAfter. by rewrite firstn_all. Qed.

Lemma openedStore_lookup w :
  openedStore w !! S (length (messages w)) = Some (placeholderIn w).
Proof.
  unfold openedStore.
  by rewrite lookup_app_r, Nat.sub_succ_l, Nat.sub_diag by lia.
Qed.

(** The placeholder in a store that is the opened one, patched or not. *)
Lemma patched_placeholder w c s (patched : bool) :
  (if patched then updateById (assistantMessageIdOf w) c s (openedStore w)
   else openedStore w) !! S (length (messages w))
  = Some (if patched
          then mkMessage (assistantMessageIdOf w) assistant c (reading 5 w) s
          else placeholderIn w).
Proof.
  destruct patched; [|apply openedStore_lookup].
  rewrite (updateById_lookup _ _ _ _ _ _ (openedStore_lookup w)).
  by rewrite decide_True.
Qed.

(** The placeholder of the exchange in the world the handler leaves. *)
Lemma handleSubmitQueued_placeholder w items tl renders :
  accepted w →
  messages (handleSubmitQueued (responds items tl) renders w).2
    !! S (length (messages w))
  = messages (streamingQueued w items tl renders) !! S (length (messages w)).
Proof.
  intros Hacc.
  destruct (handleSubmitQueued_store w items tl renders Hacc) as [<- _].
  rewrite lookup_take_lt; [done|]. rewrite length_openedStore. lia.
Qed.

(** ** Which chunks patch the store *)

(** C7, amended.  Only a chunk that carries a non-empty text delta makes
    the consumer call [updateById]: for such a chunk the body of the loop
    queues one patch, for a chunk without text, or with an empty one, it
    queues none, even when the chunk added sources to the array; the body
    itself leaves the store as it is.  When React runs a queued patch,
    [updateById] is applied to the id of the placeholder with the content
    and the array as they are then: the accumulated content and, when the
    array is not empty, the array, no sources otherwise.  So whenever
    React renders, once the loop has processed the chunks of a stream and
    is left, the messages up to the placeholder are those the loop started
    from if no chunk carried text; otherwise they are these messages with
    one patch, which carries the whole accumulated content and the
    sources accumulated at some point from the last chunk that carries
    text on.  The array holds every source accumulated, and when React
    renders after every chunk the handler is [handleSubmit]. *)
Theorem text_chunks_queue_the_patch w items tl renders :
  accepted w →
  let i := assistantMessageIdOf w in
  let r := length (arrays w) in
  let cs := processed items in
  let w' := (handleSubmitQueued (responds items tl) renders w).2 in
  (∀ c acc q w0,
     ∃ w1, loopBodyQueued r c acc q w0
           = (Normal (acc ++ delta c, if carriesText c then S q else q), w1)
         ∧ messages w1 = messages w0)
  ∧ (∀ acc q w0,
       runQueued i r acc 0 w0 = (Normal (), w0)
       ∧ messages (runQueued i r acc (S q) w0).2
         = updateById i acc
             (patchSources r (default [] (arrays w0 !! r))) (messages w0))
  ∧ (Forall (λ b, b = true) renders →
     handleSubmitQueued (responds items tl) renders w
     = handleSubmit (responds items tl) w)
  ∧ arrays w' !! r = Some (firstSeen (validPairs (citations cs)))
  ∧ ∃ k, (length (upToLastText cs) ≤ k ≤ length cs)%nat
         ∧ take (length (openedStore w)) (messages w')
           = if decide (upToLastText cs = []) then openedStore w
             else updateById i (concat (delta <$> cs))
                    (patchSources r (sourcesAfter k cs)) (openedStore w).
Proof.
  intros Hacc i r cs w'.
  split. { intros c acc q w0. rewrite loopBodyQueued_eq. by eexists. }
  split. { intros acc q w0. by rewrite !runQueued_eq. }
  split. { apply handleSubmitQueued_rendered. }
  destruct (handleSubmitQueued_store w items tl renders Hacc) as [Hms Harrs].
  destruct (streamingQueued_spec w items tl renders)
    as (k & Hk & Hpatch & Harr & _).
  split; [subst w'; by rewrite Harrs|].
  exists k. split; [done|]. subst w'. by rewrite Hms.
Qed.

(** ** Which exchanges end with sources *)

(** X18.  Whether the placeholder of an exchange ends with sources is
    decided by what has arrived when React runs the last patch.  Whenever
    React renders, the [sources] field is unset or refers to the array of
    the exchange; it is set if a valid citation has arrived by the last
    chunk that carries text, and unset if no chunk carries text or no
    valid citation arrives at all.  In between, when the valid citations
    all come after the last text, it depends on React: the field is unset
    if React renders after every chunk, and set if it renders only once
    the loop is left. *)
Theorem sources_depend_on_rendering w items tl renders :
  accepted w →
  let r := length (arrays w) in
  let cs := processed items in
  let early := validPairs (citations (upToLastText cs)) in
  let placeholderWhen (rs : list bool) :=
    messages (handleSubmitQueued (responds items tl) rs w).2
      !! S (length (messages w)) in
  (∃ m, placeholderWhen renders = Some m
        ∧ (sources m = None ∨ sources m = Some r)
        ∧ (early ≠ [] → sources m = Some r)
        ∧ (upToLastText cs = [] ∨ validPairs (citations cs) = [] →
           sources m = None))
  ∧ (∃ m, placeholderWhen [] = Some m
          ∧ sources m = if decide (early = []) then None else Some r)
  ∧ (∃ m, placeholderWhen (replicate (length cs) false) = Some m
          ∧ sources m
            = if decide (upToLastText cs = []
                         ∨ validPairs (citations cs) = [])
              then None else Some r).
Proof.
  intros Hacc r cs early placeholderWhen. subst placeholderWhen. cbn beta.
  split; [|split].
  2: { rewrite handleSubmitQueued_rendered by constructor.
       destruct (streaming_placeholder_sources w cs) as (m & Hm & Hs).
       exists m. split.
       - destruct (handleSubmit_responds w items tl Hacc)
           as [-> | [-> | ->]]; [done..|].
         cbn [withIsLoading messages].
         rewrite messages_caught, lookup_app_l; [done|].
         by eapply lookup_lt_Some.
       - rewrite Hs. fold early. fold r.
         destruct (decide (early = [])) as [He|He];
           [by rewrite bool_decide_true|by rewrite bool_decide_false]. }
  all: rewrite handleSubmitQueued_placeholder by done.
  - destruct (streamingQueued_spec w items tl renders)
      as (k & Hk & -> & _).
    fold cs. fold r.
    destruct (decide (upToLastText cs = [])) as [Hup|Hup].
    + rewrite openedStore_lookup. eexists. split; [done|].
      split; [by left|]. split; [|done].
      intros Hearly. exfalso. apply Hearly. subst early. by rewrite Hup.
    + rewrite (patched_placeholder w _ _ true). eexists. split; [done|].
      cbn [sources]. split; [apply patchSources_cases|]. split.
      * intros Hearly. apply patchSources_Some.
        apply sourcesAfter_early; [exact (proj1 Hk)|done].
      * intros [?|Hall]; [done|].
        by rewrite (sourcesAfter_none _ _ Hall).
  - rewrite streamingQueued_unrendered. fold cs. fold r.
    destruct (decide (upToLastText cs = [])) as [Hup|Hup].
    + rewrite openedStore_lookup. eexists. split; [done|].
      rewrite decide_True; [done|by left].
    + rewrite (patched_placeholder w _ _ true). eexists. split; [done|].
      cbn [sources].
      destruct (decide (validPairs (citations cs) = [])) as [Hall|Hall].
      * rewrite Hall. rewrite decide_True; [done|by right].
      * rewrite decide_False by tauto. apply patchSources_Some.
        by rewrite firstSeen_nil.
Qed.

(** ** The theorems on the queue at work *)

(** C7 at work: the text comes first, the citation after it in a chunk
    without text, and the stream ends.  The second chunk queues no patch.
    If React renders only after both chunks, the patch the first chunk
    queued finds the citation in the array and sets the sources; if React
    renders between the chunks, the placeholder ends without sources. *)
Lemma text_chunks_queue_the_patch_witness :
  let items :=
    [SDK.Yield (textChunk "It's sunny.");
     SDK.Yield (citingChunk None [citation "https://x" "X"])] in
  let late :=
    (handleSubmitQueued (responds items SDK.Exhausted) [false]
       helloWorld).2 in
  let soon :=
    (handleSubmitQueued (responds items SDK.Exhausted) [true]
       helloWorld).2 in
  arrays late !! 0%nat = Some [mkSource (lit "https://x") (lit "X")]
  ∧ (∃ k, (1 ≤ k ≤ 2)%nat
          ∧ take 3 (messages late)
            = updateById (assistantMessageIdOf helloWorld)
                (lit "It's sunny.")
                (patchSources 0 (sourcesAfter k (processed items)))
                (openedStore helloWorld))
  ∧ (∃ m, messages late !! 2%nat = Some m
          ∧ content m = lit "It's sunny." ∧ sources m = Some 0%nat)
  ∧ (∃ m, messages soon !! 2%nat = Some m
          ∧ content m = lit "It's sunny." ∧ sources m = None)
  ∧ soon
    = (handleSubmit (responds items SDK.Exhausted) helloWorld).2.
Proof.
  intros items late soon.
  destruct (text_chunks_queue_the_patch helloWorld items SDK.Exhausted
              [false] helloWorld_accepted)
    as (_ & _ & _ & Harr & k & Hk & Hms).
  destruct (text_chunks_queue_the_patch helloWorld items SDK.Exhausted
              [true] helloWorld_accepted)
    as (_ & _ & Hsoon & _).
  split; [exact Harr|]. split; [exists k; split; [exact Hk|exact Hms]|].
  split; [eexists; split; [by vm_compute|by split]|].
  split; [eexists; split; [by vm_compute|by split]|].
  subst soon. rewrite Hsoon; [reflexivity|]. repeat constructor.
Defined.

(** X18 at work, on the same stream: no sources when React renders after
    every chunk, sources when it renders once the loop is left. *)
Lemma sources_depend_on_rendering_witness :
  let items :=
    [SDK.Yield (textChunk "It's sunny.");
     SDK.Yield (citingChunk None [citation "https://x" "X"])] in
  (∃ m, messages
          (handleSubmitQueued (responds items SDK.Exhausted) []
             helloWorld).2 !! 2%nat = Some m
        ∧ sources m = None)
  ∧ (∃ m, messages
            (handleSubmitQueued (responds items SDK.Exhausted)
               [false; false] helloWorld).2 !! 2%nat = Some m
          ∧ sources m = Some 0%nat).
Proof.
  intros items.
  destruct (sources_depend_on_rendering helloWorld items SDK.Exhausted []
              helloWorld_accepted)
    as (_ & (m1 & Hm1 & Hs1) & (m2 & Hm2 & Hs2)).
  split; [exists m1|exists m2]; (split; [done|]).
  - exact Hs1.
  - exact Hs2.
Defined.

(** * Message ids and the clock *)

(** ** When the id of a placeholder is fresh *)

(** The ids an exchange leaves in the store: those it found, and numbers
    that its own clock readings bound. *)
Lemma outcome_ids c w m :
  m ∈ messages (outcome c w).2 →
  (∃ m0, m0 ∈ messages w ∧ id m = id m0)
  ∨ ∃ t, id m = toString t ∧ t ≤ clock (outcome c w).2 + 1.
Proof.
  assert (∀ wf, clock wf ≤ clock (caught wf)) as Hcaught.
  { intros wf. apply (reading_mono 0 2 wf). lia. }
  assert (∀ wf m,
            (∀ m, m ∈ messages wf →
                  (∃ m0, m0 ∈ messages w ∧ id m = id m0)
                  ∨ ∃ t, id m = toString t ∧ t ≤ clock wf + 1) →
            m ∈ messages (withIsLoading false (caught wf)) →
            (∃ m0, m0 ∈ messages w ∧ id m = id m0)
            ∨ ∃ t, id m = toString t
                   ∧ t ≤ clock (withIsLoading false (caught wf)) + 1)
    as Hfault.
  { intros wf m' Hwf Hm'. cbn [withIsLoading messages clock] in *.
    rewrite messages_caught in Hm'.
    apply elem_of_app in Hm' as [Hm'|Hm'].
    - destruct (Hwf m' Hm') as [?|(t & ? & ?)]; [by left|right].
      exists t. split; [done|]. pose proof (Hcaught wf). lia.
    - apply list_elem_of_singleton in Hm' as ->. right.
      exists (reading 1 wf). split; [done|].
      pose proof (reading_mono 1 2 wf ltac:(lia)).
      change (clock (caught wf)) with (reading 2 wf). lia. }
  assert (∀ m, m ∈ messages w ++ [userMessageIn w] →
               (∃ m0, m0 ∈ messages w ∧ id m = id m0)
               ∨ ∃ t, id m = toString t ∧ t ≤ reading 2 w + 1) as Hsub.
  { intros m' Hm'. apply elem_of_app in Hm' as [Hm'|Hm'].
    - left. by exists m'.
    - apply list_elem_of_singleton in Hm' as ->. right.
      exists (reading 1 w). split; [done|].
      pose proof (reading_mono 1 2 w ltac:(lia)). lia. }
  assert (∀ cs m, m ∈ messages (streaming w cs).2 →
                  (∃ m0, m0 ∈ messages w ∧ id m = id m0)
                  ∨ ∃ t, id m = toString t
                         ∧ t ≤ clock (streaming w cs).2 + 1) as Hstream.
  { intros cs m' Hm'.
    destruct (streaming_frame w cs) as (_ & _ & ->).
    destruct (streaming_messages w cs) as (old & p & Hms & Hold & Hp).
    rewrite Hms in Hm'. apply elem_of_app in Hm' as [Hm'|Hm'].
    - left. apply list_elem_of_lookup in Hm' as [n Hn].
      destruct (Forall2_lookup_r _ _ _ _ _ Hold Hn) as (m0 & Hm0 & Hid & _).
      exists m0. split; [by eapply list_elem_of_lookup_2|done].
    - right. apply elem_of_cons in Hm' as [->|Hm'].
      + exists (reading 1 w). split; [done|].
        pose proof (reading_mono 1 5 w ltac:(lia)). lia.
      + apply list_elem_of_singleton in Hm' as ->.
        destruct Hp as (-> & _). exists (reading 4 w + 1). split; [done|].
        pose proof (reading_mono 4 5 w ltac:(lia)). lia. }
  destruct c as [| | |cs|cs|cs]; cbn [outcome snd]; intros Hm.
  - apply Hfault; [|done]. intros m' Hm'.
    destruct (Hsub m' Hm') as [?|(t & ? & ?)]; [by left|right].
    exists t. split; [done|]. done.
  - apply Hfault; [|done]. intros m' Hm'.
    destruct (Hsub m' Hm') as [?|(t & ? & ?)]; [by left|right].
    exists t. split; [done|].
    pose proof (reading_mono 2 3 w ltac:(lia)).
    change (clock (tick (submitted w))) with (reading 3 w). lia.
  - destruct (Hsub m Hm) as [?|(t & ? & ?)]; [by left|right].
    exists t. split; [done|].
    pose proof (reading_mono 2 3 w ltac:(lia)).
    change (clock (tick (submitted w))) with (reading 3 w). lia.
  - by apply Hstream.
  - by apply Hstream.
  - apply Hfault; [|done]. apply Hstream.
Qed.

Lemma idsDated_dispatch w e : idsDated w → idsDated (dispatch w e).
Proof.
  intros Hw. destruct e as [value|model]; cbn; [done|].
  destruct (accepted_or_rejected model w) as [[Hacc ->] | [Hrej ->]];
    [|done].
  intros m Hm.
  destruct (outcome_ids _ _ _ Hm) as [(m0 & Hm0 & ->)|?]; [|done].
  destruct (Hw m0 Hm0) as (t & Hid & Ht). exists t. split; [done|].
  pose proof (outcome_clock (course model) w).
  pose proof (reading_mono 0 2 w ltac:(lia)) as H02.
  change (reading 0 w) with (clock w) in H02. lia.
Qed.

Lemma idsDated_session es w : idsDated w → idsDated (session es w).
Proof.
  revert w. induction es as [|e es IH]; intros w Hw; [done|].
  cbn. by apply IH, idsDated_dispatch.
Qed.

Lemma idsDated_mount now ds : 0 ≤ now → idsDated (mount now ds).
Proof.
  intros Hnow m Hm. apply list_elem_of_singleton in Hm as ->.
  exists 1. split; [done|]. cbn. lia.
Qed.

(** X20.  With a clock that never goes back, in a component mounted at a
    reading that is not negative, every id of the store is a number, at
    most the last reading plus one.  So when the clock has advanced
    between the state in which a submission is made and the reading of
    line 84, from which the id of the placeholder is made, this id is
    fresh: no message of the store carries it, nor does the user message
    of the exchange. *)
Theorem placeholder_id_is_fresh_when_time_passes now ds es :
  0 ≤ now →
  let w := session es (mount now ds) in
  idsDated w
  ∧ (clock w < reading 4 w →
     id (placeholderIn w) ∉ id <$> messages w ++ [userMessageIn w]).
Proof.
  intros Hnow w.
  assert (idsDated w) as Hinv by (by apply idsDated_session, idsDated_mount).
  split; [done|]. intros Hlt Hin.
  apply list_elem_of_fmap in Hin as (m & Hid & Hm).
  apply elem_of_app in Hm as [Hm|Hm].
  - destruct (Hinv m Hm) as (t & Ht & Hle).
    rewrite Ht in Hid. apply toString_inj in Hid. lia.
  - apply list_elem_of_singleton in Hm as ->.
    apply toString_inj in Hid.
    pose proof (reading_mono 1 4 w ltac:(lia)). lia.
Qed.

(** X20 at work: 5251 ms pass between the mount and line 84. *)
Lemma placeholder_id_is_fresh_when_time_passes_witness :
  id (placeholderIn helloWorld)
  ∉ id <$> messages helloWorld ++ [userMessageIn helloWorld].
Proof.
  refine (proj2 (placeholder_id_is_fresh_when_time_passes 1762153200000
                   [5000; 0; 1; 250; 0; 40; 0]%N [Change (lit "Hello")] _)
            _).
  - lia.
  - by vm_compute.
Defined.
